(** * Camera/lidar time-to-collision: a shallow embedding of camFusion_Student.cpp

    The five student functions of the project are embedded here:
    [clusterLidarWithROI], [clusterKptMatchesWithROI], [computeTTCCamera],
    [computeTTCLidar] and [matchBoundingBoxes], together with the guard that
    FinalProject_Camera.cpp puts around the two estimators.

    Numbers are modelled bit-exactly.  A C++ [double] is an IEEE 754 binary64
    value and a C++ [float] a binary32 value, both represented by the
    standard library's [spec_float] and computed with its round-to-nearest-even
    operations ([float] expressions are evaluated in single precision).  An
    [int] is an integer of [Z]; the sums and products of rectangle fields
    are taken not to overflow, which C++ leaves undefined.  The OpenCV and
    STL operations the code calls (cv::Rect, cv::norm, std::vector::at,
    std::map::insert, std::sort) are modelled from their documented
    behaviour.  The first part of the file holds the embedding, the second
    the lemmas and the theorems about it. *)

From Stdlib Require Import ZArith QArith Qabs Bool Lia Sorted.
From Stdlib Require Import Floats.SpecFloat.
From stdpp Require Import base list gmap sorting.

Local Open Scope Z_scope.

(** ** IEEE 754 numbers *)

(** [double]: binary64. *)
Module D.
Definition prec : Z := 53.
Definition emax : Z := 1024.

Definition add := SFadd prec emax.
Definition sub := SFsub prec emax.
Definition mul := SFmul prec emax.
Definition div := SFdiv prec emax.
Definition sqrt := SFsqrt prec emax.
Definition opp := SFopp.
Definition ltb := SFltb.
Definition leb := SFleb.
Definition eqb := SFeqb.

(** [a > b] and [a >= b] of C++ are [b < a] and [b <= a]. *)
Definition gtb (a b : spec_float) : bool := ltb b a.
Definition geb (a b : spec_float) : bool := leb b a.
(** [a != b] is the negation of [a == b] (true when either is NaN). *)
Definition neqb (a b : spec_float) : bool := negb (eqb a b).

(** Conversion of an integer ([int], [size_t]) to [double]. *)
Definition of_Z (n : Z) : spec_float := binary_normalize prec emax n 0 false.

(** The decimal literal [n/d], correctly rounded: [lit 16 10] is [1.6]. *)
Definition lit (n : Z) (d : positive) : spec_float := div (of_Z n) (of_Z (Zpos d)).

Definition zero : spec_float := S754_zero false.
Definition nan : spec_float := S754_nan.

(** [std::pow(v, 2)]: the square of [v], correctly rounded (a library whose
    [pow] is not exact for the exponent 2 may differ in the last bit). *)
Definition pow2 (v : spec_float) : spec_float := mul v v.

(** [std::numeric_limits<double>::epsilon()], that is 2^-52. *)
Definition epsilon : spec_float := S754_finite false 4503599627370496 (-104).

(** [std::min(a, b)]: [b] when [b < a], else [a]. *)
Definition min (a b : spec_float) : spec_float := if ltb b a then b else a.

(** Conversion of a [double] to [int]: truncation toward zero.  C++ leaves
    the conversion undefined for NaN, infinities and values outside the
    range of [int]; the model returns what the x86-64 conversion
    instruction returns there, the smallest [int]. *)
Definition int_min : Z := - 2 ^ 31.
Definition to_int (v : spec_float) : Z :=
  match v with
  | S754_zero _ => 0
  | S754_finite s m e =>
      let a := match e with
               | Zneg p => Z.shiftr (Zpos m) (Zpos p)
               | _ => Z.shiftl (Zpos m) e
               end in
      let t := if s then - a else a in
      if (int_min <=? t) && (t <? 2 ^ 31) then t else int_min
  | _ => int_min
  end.
End D.

(** [float]: binary32. *)
Module F.
Definition prec : Z := 24.
Definition emax : Z := 128.

Definition sub := SFsub prec emax.
Definition mul := SFmul prec emax.
Definition div := SFdiv prec emax.
Definition ltb := SFltb.
Definition leb := SFleb.
Definition gtb (a b : spec_float) : bool := ltb b a.

Definition of_Z (n : Z) : spec_float := binary_normalize prec emax n 0 false.

(** Rounding of a [double] to [float]. *)
Definition of_double (v : spec_float) : spec_float :=
  match v with
  | S754_finite s m e => binary_round prec emax s m e
  | _ => v
  end.

(** Promotion of a [float] to [double]; it is exact. *)
Definition to_double (v : spec_float) : spec_float :=
  match v with
  | S754_finite s m e => binary_round D.prec D.emax s m e
  | _ => v
  end.

(** Conversion of a [float] to [int], as for [double]. *)
Definition to_int (v : spec_float) : Z := D.to_int (to_double v).
End F.

Abbreviation double := spec_float.
Abbreviation float := spec_float.

(** A value that is neither NaN nor an infinity. *)
Definition is_finite (v : spec_float) : bool :=
  match v with
  | S754_zero _ | S754_finite _ _ _ => true
  | _ => false
  end.

Definition is_nan (v : spec_float) : bool :=
  match v with
  | S754_nan => true
  | _ => false
  end.

(** The rational number a finite value stands for (0 for the others). *)
Definition SF2Q (v : spec_float) : Q :=
  match v with
  | S754_finite s m e =>
      let a := match e with
               | Zneg p => Qmake (Zpos m) (2 ^ p)
               | _ => inject_Z (Zpos m * 2 ^ e)
               end in
      if s then Qopp a else a
  | _ => 0%Q
  end.

(** ** Lidar time-to-collision: [computeTTCLidar] *)

(** [LidarPoint] of dataStructures.h: position [x], [y], [z] in metres and
    reflectivity [r], all [double]. *)
Module LidarPoint.
Record t := mk { x : double; y : double; z : double; r : double }.
End LidarPoint.

(** The four running sums of one accumulation loop. *)
Record Sums := mkSums { XSum : double; XSqSum : double; ISum : double; ISqSum : double }.

Definition accumulate (s : Sums) (it : LidarPoint.t) : Sums :=
  {| XSum := D.add (XSum s) (LidarPoint.x it);
     XSqSum := D.add (XSqSum s) (D.pow2 (LidarPoint.x it));
     ISum := D.add (ISum s) (LidarPoint.r it);
     ISqSum := D.add (ISqSum s) (D.pow2 (LidarPoint.r it)) |}.

Definition lidarSums (lidarPoints : list LidarPoint.t) : Sums :=
  fold_left accumulate lidarPoints (mkSums D.zero D.zero D.zero D.zero).

(** [size()] of a vector, converted to [double] by the division. *)
Definition size_d {A} (v : list A) : double := D.of_Z (Z.of_nat (length v)).

Definition XMean (pts : list LidarPoint.t) : double :=
  D.div (XSum (lidarSums pts)) (size_d pts).
Definition XStd (pts : list LidarPoint.t) : double :=
  D.sqrt (D.sub (D.div (XSqSum (lidarSums pts)) (size_d pts)) (D.pow2 (XMean pts))).
Definition IMean (pts : list LidarPoint.t) : double :=
  D.div (ISum (lidarSums pts)) (size_d pts).
Definition IStd (pts : list LidarPoint.t) : double :=
  D.sqrt (D.sub (D.div (ISqSum (lidarSums pts)) (size_d pts)) (D.pow2 (IMean pts))).

(** [float DistThreshold = 2] and [float intensityThreshold = 1.6]. *)
Definition DistThreshold : float := F.of_Z 2.
Definition intensityThreshold : float := F.of_double (D.lit 16 10).

(** [v > mean - thr*std && v < mean + thr*std], the product in [double]. *)
Definition inBand (thr : float) (mean std v : double) : bool :=
  D.gtb v (D.sub mean (D.mul (F.to_double thr) std))
  && D.ltb v (D.add mean (D.mul (F.to_double thr) std)).

(** The condition of the two closest-point loops, on the statistics of the
    frame the point belongs to. *)
Definition survives (pts : list LidarPoint.t) (it : LidarPoint.t) : bool :=
  inBand DistThreshold (XMean pts) (XStd pts) (LidarPoint.x it)
  && inBand intensityThreshold (IMean pts) (IStd pts) (LidarPoint.r it).

(** One iteration: [minX = (minX > it->x) ? it->x : minX] under the condition. *)
Definition minStep (pts : list LidarPoint.t) (minX : double) (it : LidarPoint.t) : double :=
  if survives pts it
  then (if D.gtb minX (LidarPoint.x it) then LidarPoint.x it else minX)
  else minX.

Definition minXInit : double := D.of_Z 1000000000.

(** The closest-point loop over one frame, from [minX = 1e9]. *)
Definition closestX (pts : list LidarPoint.t) : double :=
  fold_left (minStep pts) pts minXInit.

(** The value [-1e9] that marks a velocity or acceleration not yet known. *)
Definition unknown : double := D.opp (D.of_Z 1000000000).

(** What the function writes to the console. *)
Inductive Msg :=
  | MsgVehicleAcc (vehicleVelCurr PrevVehicleVel dT vehicleAcc : double)
  | MsgNotAble.

(** The three reference parameters after the call, and the console output.
    [TTC] keeps the caller's value when the function does not assign it. *)
Record LidarResult := mkLidarResult
  { TTC : double; vehicleVel : double; vehicleAcc : double; cout : list Msg }.

(** [float dT = 1.0/frameRate]. *)
Definition dT_of (frameRate : double) : float := F.of_double (D.div (D.of_Z 1) frameRate).

(** [minXCurr * dT / (minXPrev - minXCurr)]. *)
Definition ttcConstantVelocity (minXPrev minXCurr : double) (dT : float) : double :=
  D.div (D.mul minXCurr (F.to_double dT)) (D.sub minXPrev minXCurr).

(** [(minXPrev - minXCurr) / dT]. *)
Definition closingVelocity (minXPrev minXCurr : double) (dT : float) : double :=
  D.div (D.sub minXPrev minXCurr) (F.to_double dT).

(** The quadratic solve of the constant-acceleration branch (lines 316-343),
    with [a = 1.0]: the coefficients, the discriminant and the two roots
    [TTC1 = (-b - sqrt(b*b - 4*a*c)) / 2*a] and [TTC2], then the choice. *)
Definition coefA : double := D.of_Z 1.
Definition coefB (vehicleVel vehicleAcc : double) : double :=
  D.div vehicleVel (D.mul (D.lit 1 2) vehicleAcc).
Definition coefC (vehicleAcc minXCurr : double) : double :=
  D.div (D.opp minXCurr) (D.mul (D.lit 1 2) vehicleAcc).
Definition discriminant (b c : double) : double :=
  D.sub (D.mul b b) (D.mul (D.mul (D.of_Z 4) coefA) c).
Definition rootTTC1 (b c : double) : double :=
  D.mul (D.div (D.sub (D.opp b) (D.sqrt (discriminant b c))) (D.of_Z 2)) coefA.
Definition rootTTC2 (b c : double) : double :=
  D.mul (D.div (D.add (D.opp b) (D.sqrt (discriminant b c))) (D.of_Z 2)) coefA.

(** The TTC the branch assigns, or [None] when it only prints
    "TTC is not able to calculate!" and assigns nothing. *)
Definition solveQuadratic (vehicleVel vehicleAcc minXCurr : double) : option double :=
  let b := coefB vehicleVel vehicleAcc in
  let c := coefC vehicleAcc minXCurr in
  let d := discriminant b c in
  if D.gtb d D.zero then
    let TTC1 := rootTTC1 b c in
    let TTC2 := rootTTC2 b c in
    if D.gtb TTC1 D.zero && D.gtb TTC2 D.zero then Some (D.min TTC1 TTC2)
    else if D.gtb TTC1 D.zero && D.ltb TTC2 D.zero then Some TTC1
    else if D.ltb TTC1 D.zero && D.gtb TTC2 D.zero then Some TTC2
    else None
  else if D.eqb d D.zero then Some (D.div b (D.mul (D.of_Z (-2)) coefA))
  else None.

Definition computeTTCLidar (lidarPointsPrev lidarPointsCurr : list LidarPoint.t)
    (frameRate : double) (TTC0 vehicleVel0 vehicleAcc0 : double) (TTCcalModel : Z)
    : LidarResult :=
  let dT := dT_of frameRate in
  let minXPrev := closestX lidarPointsPrev in
  let minXCurr := closestX lidarPointsCurr in
  (* if (vehicleVel != -1e9 && vehicleAcc == -1e9) *)
  let '(acc1, out1) :=
    if D.neqb vehicleVel0 unknown && D.eqb vehicleAcc0 unknown then
      let vehicleVelCurr := closingVelocity minXPrev minXCurr dT in
      let acc := D.div (D.sub vehicleVelCurr vehicleVel0) (F.to_double dT) in
      (acc, [MsgVehicleAcc vehicleVelCurr vehicleVel0 (F.to_double dT) acc])
    else (vehicleAcc0, []) in
  if TTCcalModel =? 0 then
    mkLidarResult (ttcConstantVelocity minXPrev minXCurr dT) vehicleVel0 acc1 out1
  else
    let '(ttc, out2) :=
      if D.eqb acc1 unknown then (ttcConstantVelocity minXPrev minXCurr dT, out1)
      else match solveQuadratic vehicleVel0 acc1 minXCurr with
           | Some t => (t, out1)
           | None => (TTC0, out1 ++ [MsgNotAble])
           end in
    let vel1 :=
      if D.eqb vehicleVel0 unknown && D.eqb acc1 unknown
      then closingVelocity minXPrev minXCurr dT
      else D.add vehicleVel0 (D.mul acc1 (F.to_double dT)) in
    mkLidarResult ttc vel1 acc1 out2.

(** A run of calls that share the kinematic state, as the frame loop of
    FinalProject_Camera.cpp makes them: each call has its own point lists,
    frame rate and (uninitialised) [ttcLidar]; the velocity and acceleration
    are threaded through.  The TTC of every call is collected. *)
Record LidarCall := mkLidarCall
  { callPrev : list LidarPoint.t; callCurr : list LidarPoint.t;
    callFrameRate : double; callTTC0 : double }.

Fixpoint runLidar (TTCcalModel : Z) (calls : list LidarCall) (vel acc : double)
    : list double * double * double :=
  match calls with
  | [] => ([], vel, acc)
  | c :: rest =>
      let r := computeTTCLidar (callPrev c) (callCurr c) (callFrameRate c)
                 (callTTC0 c) vel acc TTCcalModel in
      let '(ttcs, vel', acc') := runLidar TTCcalModel rest (vehicleVel r) (vehicleAcc r) in
      (TTC r :: ttcs, vel', acc')
  end.

(** ** OpenCV and STL types the functions work on *)

(** [cv::Rect], a rectangle with [int] fields.  [contains] is half-open:
    the left and top edges belong to the rectangle, the right and bottom
    edges do not.  [a & b] is the intersection ([intersect]) and [a | b] the
    smallest rectangle that contains both ([bounding]); an empty result is
    [Rect()], all zero. *)
Module Rect.
Record t := mk { x : Z; y : Z; width : Z; height : Z }.

Definition zero : t := mk 0 0 0 0.

Definition empty (a : t) : bool := (width a <=? 0) || (height a <=? 0).

Definition area (a : t) : Z := width a * height a.

Definition contains (a : t) (pt : Z * Z) : bool :=
  (x a <=? fst pt) && (fst pt <? x a + width a)
  && (y a <=? snd pt) && (snd pt <? y a + height a).

Definition intersect (a b : t) : t :=
  let x1 := Z.max (x a) (x b) in
  let y1 := Z.max (y a) (y b) in
  let w := Z.min (x a + width a) (x b + width b) - x1 in
  let h := Z.min (y a + height a) (y b + height b) - y1 in
  if (w <=? 0) || (h <=? 0) then zero else mk x1 y1 w h.

Definition bounding (a b : t) : t :=
  if empty a then b
  else if empty b then a
  else
    let x1 := Z.min (x a) (x b) in
    let y1 := Z.min (y a) (y b) in
    mk x1 y1 (Z.max (x a + width a) (x b + width b) - x1)
             (Z.max (y a + height a) (y b + height b) - y1).
End Rect.

(** [cv::Point2f], with [float] coordinates; [kpA.pt - kpB.pt] and
    [cv::norm], which is [sqrt((double)x*x + (double)y*y)]. *)
Module Point2f.
Record t := mk { x : float; y : float }.

Definition minus (a b : t) : t := mk (F.sub (x a) (x b)) (F.sub (y a) (y b)).

Definition norm (a : t) : double :=
  D.sqrt (D.add (D.mul (F.to_double (x a)) (F.to_double (x a)))
                (D.mul (F.to_double (y a)) (F.to_double (y a)))).
End Point2f.

(** [cv::KeyPoint] and [cv::DMatch], with the fields the functions read. *)
Record KeyPoint := mkKeyPoint { pt : Point2f.t }.
Record DMatch := mkDMatch { queryIdx : Z; trainIdx : Z }.

(** [BoundingBox] of dataStructures.h, with the fields the functions use. *)
Record BoundingBox := mkBoundingBox
  { boxID : Z; roi : Rect.t; lidarPoints : list LidarPoint.t; kptMatches : list DMatch }.

(** A call returns, throws [std::out_of_range], or has undefined behaviour. *)
Inductive Outcome (A : Type) : Type :=
  | Returns (a : A)
  | Throws
  | Undefined.
Arguments Returns {A} a.
Arguments Throws {A}.
Arguments Undefined {A}.

#[export] Instance Outcome_bind : MBind Outcome := fun A B k o =>
  match o with
  | Returns a => k a
  | Throws => Throws
  | Undefined => Undefined
  end.

(** [v.at(i)] with an [int] index: bounds-checked access. *)
Definition at_ {A} (v : list A) (i : Z) : Outcome A :=
  if i <? 0 then Throws
  else match v !! Z.to_nat i with
       | Some a => Returns a
       | None => Throws
       end.

(** The rectangle shrunk by [shrinkFactor], as both clustering functions
    compute it; every field is truncated to [int]. *)
Definition smallerBox (shrinkFactor : float) (roi : Rect.t) : Rect.t :=
  {| Rect.x := D.to_int (D.add (D.of_Z (Rect.x roi))
                 (D.div (F.to_double (F.mul shrinkFactor (F.of_Z (Rect.width roi)))) (D.of_Z 2)));
     Rect.y := D.to_int (D.add (D.of_Z (Rect.y roi))
                 (D.div (F.to_double (F.mul shrinkFactor (F.of_Z (Rect.height roi)))) (D.of_Z 2)));
     Rect.width := F.to_int (F.mul (F.of_Z (Rect.width roi)) (F.sub (F.of_Z 1) shrinkFactor));
     Rect.height := F.to_int (F.mul (F.of_Z (Rect.height roi)) (F.sub (F.of_Z 1) shrinkFactor)) |}.

(** ** Lidar-ROI association: [clusterLidarWithROI] *)

Section ClusterLidar.
(** [Y = P_rect_xx * R_rect_xx * RT * X], the cv::Mat product for the point. *)
Variable project : LidarPoint.t -> double * double * double.

(** [pt.x = Y0 / Y2; pt.y = Y1 / Y2] into the [int] fields of [cv::Point]. *)
Definition pixelOf (it1 : LidarPoint.t) : Z * Z :=
  let '(Y0, Y1, Y2) := project it1 in
  (D.to_int (D.div Y0 Y2), D.to_int (D.div Y1 Y2)).

(** The inner loop: the positions, from [i] on, of the boxes whose shrunk
    rectangle contains the pixel. *)
Fixpoint enclosingBoxes (shrinkFactor : float) (i : nat) (boundingBoxes : list BoundingBox)
    (px : Z * Z) : list nat :=
  match boundingBoxes with
  | [] => []
  | it2 :: rest =>
      if Rect.contains (smallerBox shrinkFactor (roi it2)) px
      then i :: enclosingBoxes shrinkFactor (S i) rest px
      else enclosingBoxes shrinkFactor (S i) rest px
  end.

Definition pushLidarPoint (it1 : LidarPoint.t) (b : BoundingBox) : BoundingBox :=
  {| boxID := boxID b; roi := roi b;
     lidarPoints := lidarPoints b ++ [it1]; kptMatches := kptMatches b |}.

(** One iteration of the outer loop. *)
Definition assignPoint (shrinkFactor : float) (boundingBoxes : list BoundingBox)
    (it1 : LidarPoint.t) : list BoundingBox :=
  match enclosingBoxes shrinkFactor 0 boundingBoxes (pixelOf it1) with
  | [i] => alter (pushLidarPoint it1) i boundingBoxes
  | _ => boundingBoxes
  end.

Definition clusterLidarWithROI (boundingBoxes : list BoundingBox)
    (lidarPoints : list LidarPoint.t) (shrinkFactor : float) : list BoundingBox :=
  fold_left (assignPoint shrinkFactor) lidarPoints boundingBoxes.
End ClusterLidar.

(** ** ROI keypoint filter: [clusterKptMatchesWithROI] *)

Section ClusterKptMatches.
(** [cv::Rect::contains] applied to a [cv::Point2f]: OpenCV versions differ
    on whether the point is first rounded to [int] coordinates. *)
Variable containsPt : Rect.t -> Point2f.t -> bool.

(** The displacement of one correspondence, [cv::norm(kpCurr.pt - kpPrev.pt)]. *)
Definition displacement (kptsPrev kptsCurr : list KeyPoint) (it : DMatch) : Outcome double :=
  kpCurr ← at_ kptsCurr (trainIdx it);
  kpPrev ← at_ kptsPrev (queryIdx it);
  Returns (Point2f.norm (Point2f.minus (pt kpCurr) (pt kpPrev))).

(** First loop: [distSum] and [distSqSum]. *)
Fixpoint distSums (kptsPrev kptsCurr : list KeyPoint) (ms : list DMatch)
    (distSum distSqSum : double) : Outcome (double * double) :=
  match ms with
  | [] => Returns (distSum, distSqSum)
  | it :: rest =>
      d ← displacement kptsPrev kptsCurr it;
      distSums kptsPrev kptsCurr rest (D.add distSum d) (D.add distSqSum (D.pow2 d))
  end.

(** [float distThreshold = 1.7] and [float shrinkFactor = 0.10]. *)
Definition distThreshold : float := F.of_double (D.lit 17 10).
Definition kptShrinkFactor : float := F.of_double (D.lit 10 100).

(** Second loop: the matches appended to [boundingBox.kptMatches]. *)
Fixpoint keepMatches (box : Rect.t) (distMean distStd : double)
    (kptsPrev kptsCurr : list KeyPoint) (ms : list DMatch) (kept : list DMatch)
    : Outcome (list DMatch) :=
  match ms with
  | [] => Returns kept
  | it :: rest =>
      kpCurr ← at_ kptsCurr (trainIdx it);
      kpPrev ← at_ kptsPrev (queryIdx it);
      let kept' :=
        if containsPt box (pt kpCurr) && containsPt box (pt kpPrev) then
          let dist := Point2f.norm (Point2f.minus (pt kpCurr) (pt kpPrev)) in
          if D.gtb dist (D.sub distMean (D.mul (F.to_double distThreshold) distStd))
             && D.ltb dist (D.add distMean (D.mul (F.to_double distThreshold) distStd))
          then kept ++ [it] else kept
        else kept in
      keepMatches box distMean distStd kptsPrev kptsCurr rest kept'
  end.

Definition clusterKptMatchesWithROI (boundingBox : BoundingBox)
    (kptsPrev kptsCurr : list KeyPoint) (frameMatches : list DMatch) : Outcome BoundingBox :=
  sums ← distSums kptsPrev kptsCurr frameMatches D.zero D.zero;
  let distMean := D.div (fst sums) (size_d frameMatches) in
  let distStd := D.sqrt (D.sub (D.div (snd sums) (size_d frameMatches)) (D.pow2 distMean)) in
  kept ← keepMatches (smallerBox kptShrinkFactor (roi boundingBox)) distMean distStd
            kptsPrev kptsCurr frameMatches (kptMatches boundingBox);
  Returns {| boxID := boxID boundingBox; roi := roi boundingBox;
             lidarPoints := lidarPoints boundingBox; kptMatches := kept |}.
End ClusterKptMatches.

(** ** Camera time-to-collision: [computeTTCCamera] *)

(** [double minDist = 100.0]. *)
Definition minDist : double := D.of_Z 100.

(** The inner loop, for one outer correspondence. *)
Fixpoint innerLoop (kptsPrev kptsCurr : list KeyPoint) (kpOuterCurr kpOuterPrev : KeyPoint)
    (inner : list DMatch) (distRatios : list double) : Outcome (list double) :=
  match inner with
  | [] => Returns distRatios
  | it2 :: rest =>
      kpInnerCurr ← at_ kptsCurr (trainIdx it2);
      kpInnerPrev ← at_ kptsPrev (queryIdx it2);
      let distCurr := Point2f.norm (Point2f.minus (pt kpOuterCurr) (pt kpInnerCurr)) in
      let distPrev := Point2f.norm (Point2f.minus (pt kpOuterPrev) (pt kpInnerPrev)) in
      let distRatios' :=
        if D.gtb distPrev D.epsilon && D.geb distCurr minDist
        then distRatios ++ [D.div distCurr distPrev]
        else distRatios in
      innerLoop kptsPrev kptsCurr kpOuterCurr kpOuterPrev rest distRatios'
  end.

(** The outer loop over [outer], each time against all of [inner]. *)
Fixpoint outerLoop (kptsPrev kptsCurr : list KeyPoint) (outer inner : list DMatch)
    (distRatios : list double) : Outcome (list double) :=
  match outer with
  | [] => Returns distRatios
  | it1 :: rest =>
      kpOuterCurr ← at_ kptsCurr (trainIdx it1);
      kpOuterPrev ← at_ kptsPrev (queryIdx it1);
      distRatios' ← innerLoop kptsPrev kptsCurr kpOuterCurr kpOuterPrev inner distRatios;
      outerLoop kptsPrev kptsCurr rest inner distRatios'
  end.

(** [std::sort] with [operator<]: the result is the ascending arrangement,
    here built by insertion.  [operator<] does not order NaN, and C++ leaves
    the sort of a vector that holds one undefined; the arrangement the
    insertion gives there depends on the order of the input. *)
Fixpoint insertSorted (v : double) (l : list double) : list double :=
  match l with
  | [] => [v]
  | h :: t => if D.ltb v h then v :: h :: t else h :: insertSorted v t
  end.

Definition sort (l : list double) : list double := fold_right insertSorted [] l.

(** The median of the sorted ratios, with the indices of the source. *)
Definition medianOfSorted (sorted : list double) : double :=
  let n := length sorted in
  if Nat.eqb (n mod 2) 1 then nth (n / 2) sorted D.nan
  else D.div (D.add (nth (n / 2) sorted D.nan) (nth ((n - 1) / 2) sorted D.nan)) (D.of_Z 2).

(** [-dT / (1 - medianDistRatio)] with [double dT = 1 / frameRate]. *)
Definition ttcFromRatio (frameRate medianDistRatio : double) : double :=
  D.div (D.opp (D.div (D.of_Z 1) frameRate)) (D.sub (D.of_Z 1) medianDistRatio).

(** The outer loop runs from [begin()] up to [end() - 1], the inner one from
    [begin() + 1] up to [end()].  On an empty vector [end() - 1] lies before
    [begin()], the outer loop is entered and reads past the vector. *)
Definition computeTTCCamera (kptsPrev kptsCurr : list KeyPoint) (kptMatches : list DMatch)
    (frameRate : double) : Outcome double :=
  match kptMatches with
  | [] => Undefined
  | _ :: inner =>
      distRatios ← outerLoop kptsPrev kptsCurr (removelast kptMatches) inner [];
      match distRatios with
      | [] => Returns D.nan
      | _ => Returns (ttcFromRatio frameRate (medianOfSorted (sort distRatios)))
      end
  end.

(** ** Bounding-box matching: [matchBoundingBoxes] *)

(** [(a & b).area() / float((a | b).area())], a [float]. *)
Definition IOURatio (a b : Rect.t) : float :=
  F.div (F.of_Z (Rect.area (Rect.intersect a b))) (F.of_Z (Rect.area (Rect.bounding a b))).

(** [float IOUThreshold = 0.7] and the start value [maxIOURatio = -1e9]. *)
Definition IOUThreshold : float := F.of_double (D.lit 7 10).
Definition maxIOUInit : float := F.of_double (D.opp (D.of_Z 1000000000)).

(** The inner loop over the current boxes for one previous box [it1]: the
    running maximum and the vector [boundingBoxPairs]. *)
Fixpoint scanCurrent (it1 : BoundingBox) (currBoxes : list BoundingBox)
    (maxIOURatio : float) (boundingBoxPairs : list (BoundingBox * BoundingBox))
    : float * list (BoundingBox * BoundingBox) :=
  match currBoxes with
  | [] => (maxIOURatio, boundingBoxPairs)
  | it2 :: rest =>
      let r := IOURatio (roi it1) (roi it2) in
      if F.gtb r maxIOURatio
      then scanCurrent it1 rest r (boundingBoxPairs ++ [(it1, it2)])
      else scanCurrent it1 rest maxIOURatio boundingBoxPairs
  end.

(** [std::map::insert]: no effect when the key is already present. *)
Definition mapInsert (k v : Z) (m : gmap Z Z) : gmap Z Z :=
  match m !! k with
  | Some _ => m
  | None => <[k := v]> m
  end.

(** One iteration of the outer loop.  [boundingBoxPairs.back()] exists
    whenever the maximum has left its start value. *)
Definition matchOne (currBoxes : list BoundingBox) (bbBestMatches : gmap Z Z)
    (it1 : BoundingBox) : gmap Z Z :=
  let '(maxIOURatio, boundingBoxPairs) := scanCurrent it1 currBoxes maxIOUInit [] in
  if F.gtb maxIOURatio IOUThreshold then
    match last boundingBoxPairs with
    | Some (p, c) => mapInsert (boxID p) (boxID c) bbBestMatches
    | None => bbBestMatches
    end
  else bbBestMatches.

(** The keypoint matches are a parameter of the source function that it
    never reads; the frames are represented by their boxes. *)
Definition matchBoundingBoxes (bbBestMatches : gmap Z Z)
    (prevBoxes currBoxes : list BoundingBox) : gmap Z Z :=
  fold_left (matchOne currBoxes) prevBoxes bbBestMatches.

(** ** The guard of the frame loop (FinalProject_Camera.cpp, lines 365-383) *)

(** What the run carries from one matched pair to the next. *)
Record RunState := mkRunState
  { runVel : double; runAcc : double;
    lidarBasedTTC : list double; cameraBasedTTC : list double }.

Section FrameLoop.
Variable containsPt : Rect.t -> Point2f.t -> bool.

(** The body of the loop over matched pairs for one pair: both estimators
    run only when both boxes have lidar points.  [ttcLidar0] is the value
    the uninitialised local [ttcLidar] happens to hold. *)
Definition processPair (TTCcalModel : Z) (sensorFrameRate : double)
    (kptsPrev kptsCurr : list KeyPoint) (frameMatches : list DMatch)
    (prevBB currBB : BoundingBox) (ttcLidar0 : double) (st : RunState)
    : Outcome (BoundingBox * RunState) :=
  if (0 <? Z.of_nat (length (lidarPoints currBB)))
     && (0 <? Z.of_nat (length (lidarPoints prevBB))) then
    let r := computeTTCLidar (lidarPoints prevBB) (lidarPoints currBB) sensorFrameRate
               ttcLidar0 (runVel st) (runAcc st) TTCcalModel in
    currBB' ← clusterKptMatchesWithROI containsPt currBB kptsPrev kptsCurr frameMatches;
    ttcCamera ← computeTTCCamera kptsPrev kptsCurr (kptMatches currBB') sensorFrameRate;
    Returns (currBB',
             {| runVel := vehicleVel r; runAcc := vehicleAcc r;
                lidarBasedTTC := lidarBasedTTC st ++ [TTC r];
                cameraBasedTTC := cameraBasedTTC st ++ [ttcCamera] |})
  else Returns (currBB, st).
End FrameLoop.

(** [cv::Rect::contains] on a [cv::Point2f] without rounding: the [int]
    bounds are compared with the [float] coordinates. *)
Definition containsExact (a : Rect.t) (p : Point2f.t) : bool :=
  F.leb (F.of_Z (Rect.x a)) (Point2f.x p)
  && F.ltb (Point2f.x p) (F.of_Z (Rect.x a + Rect.width a))
  && F.leb (F.of_Z (Rect.y a)) (Point2f.y p)
  && F.ltb (Point2f.y p) (F.of_Z (Rect.y a + Rect.height a)).

(** ** Notions the statements below use *)


(** Some point of [pts] passes both bands with a distance below [1e9]. *)
Definition hasSurvivor (pts : list LidarPoint.t) : Prop :=
  exists p, In p pts /\ survives pts p = true /\ D.ltb (LidarPoint.x p) minXInit = true.

(** Three lidar points at forward distances [x0], [x0+1], [x0+2] with
    reflectivities 1, 2, 3. *)
Definition lidarAt (x r : Z) : LidarPoint.t :=
  LidarPoint.mk (D.of_Z x) D.zero D.zero (D.of_Z r).
Definition threePoints (x0 : Z) : list LidarPoint.t :=
  [lidarAt x0 1; lidarAt (x0 + 1) 2; lidarAt (x0 + 2) 3].

(** A TTC as the specification wants it: a positive number of seconds, or
    the not-a-number marker. *)
Definition positiveOrMarker (t : double) : Prop :=
  is_nan t = true \/ (is_finite t = true /\ D.gtb t D.zero = true).

(** The stage of the kinematic state: 0 when nothing is known, 1 when the
    velocity is known, 2 when the acceleration is known. *)
Definition phase (vel acc : double) : nat :=
  if D.eqb acc unknown then (if D.eqb vel unknown then 0%nat else 1%nat) else 2%nat.

(** The acceleration estimate [(vehicleVelCurr - vehicleVel) / dT]. *)
Definition accelEstimate (minXPrev minXCurr vehicleVel : double) (dT : float) : double :=
  D.div (D.sub (closingVelocity minXPrev minXCurr dT) vehicleVel) (F.to_double dT).

(** The TTC after the quadratic solve: the root chosen, or the caller's
    value when none is assigned. *)
Definition quadraticTTC (TTC0 vehicleVel vehicleAcc minXCurr : double) : double :=
  match solveQuadratic vehicleVel vehicleAcc minXCurr with
  | Some t => t
  | None => TTC0
  end.

(** Intersection over union as the term is defined: the area of the
    intersection over the area covered by the two rectangles together. *)
Definition unionArea (a b : Rect.t) : Z :=
  Rect.area a + Rect.area b - Rect.area (Rect.intersect a b).
Definition trueIoU (a b : Rect.t) : Q :=
  Qmake (Rect.area (Rect.intersect a b)) (Z.to_pos (unionArea a b)).

Definition boxAt (id x y w h : Z) : BoundingBox :=
  mkBoundingBox id (Rect.mk x y w h) [] [].

(** The ratios of the unordered pairs of a match list, each pair once: the
    reading of "every unordered pair" that the camera estimator is compared
    with below. *)
Fixpoint unorderedPairRatios (kptsPrev kptsCurr : list KeyPoint) (ms : list DMatch)
    : Outcome (list double) :=
  match ms with
  | [] => Returns []
  | it1 :: rest =>
      kpOuterCurr ← at_ kptsCurr (trainIdx it1);
      kpOuterPrev ← at_ kptsPrev (queryIdx it1);
      here ← innerLoop kptsPrev kptsCurr kpOuterCurr kpOuterPrev rest [];
      later ← unorderedPairRatios kptsPrev kptsCurr rest;
      Returns (here ++ later)
  end.

(** Four keypoints that move apart between the frames, and their matches. *)
Definition keyPointAt (x y : Z) : KeyPoint := mkKeyPoint (Point2f.mk (F.of_Z x) (F.of_Z y)).
Definition fourPrev : list KeyPoint :=
  [keyPointAt 0 0; keyPointAt 100 0; keyPointAt 0 200; keyPointAt 300 300].
Definition fourCurr : list KeyPoint :=
  [keyPointAt 0 0; keyPointAt 110 0; keyPointAt 0 240; keyPointAt 390 390].
Definition fourMatches : list DMatch :=
  [mkDMatch 0 0; mkDMatch 1 1; mkDMatch 2 2; mkDMatch 3 3].

(** A pixel strictly inside a rectangle: on none of its four edges. *)
Definition strictlyInside (a : Rect.t) (px : Z * Z) : Prop :=
  Rect.x a < fst px < Rect.x a + Rect.width a
  /\ Rect.y a < snd px < Rect.y a + Rect.height a.

(** The pixel lies in the shrunk rectangle of the box at position [k] and in
    that of no other box ([Rect.contains]: left and top edge included). *)
Definition inExactlyOne (shrinkFactor : float) (boxes : list BoundingBox) (k : nat)
    (px : Z * Z) : Prop :=
  (exists b, boxes !! k = Some b
             /\ Rect.contains (smallerBox shrinkFactor (roi b)) px = true)
  /\ (forall j b, boxes !! j = Some b ->
        Rect.contains (smallerBox shrinkFactor (roi b)) px = true -> j = k).

(** The point goes to the box at position [k]. *)
Definition ownsPoint (project : LidarPoint.t -> double * double * double)
    (shrinkFactor : float) (boxes : list BoundingBox) (k : nat) (p : LidarPoint.t) : bool :=
  match enclosingBoxes shrinkFactor 0 boxes (pixelOf project p) with
  | [i] => Nat.eqb i k
  | _ => false
  end.

(** A projection for the examples: the point itself, so that the pixel is
    [(x/z, y/z)]. *)
Definition projectXYZ (p : LidarPoint.t) : double * double * double :=
  (LidarPoint.x p, LidarPoint.y p, LidarPoint.z p).
Definition lidarPixel (px py : Z) : LidarPoint.t :=
  LidarPoint.mk (D.of_Z px) (D.of_Z py) (D.of_Z 1) D.zero.

(** [float shrinkFactor = 0.10] of the frame loop. *)
Definition lidarShrinkFactor : float := F.of_double (D.lit 10 100).

(** The keypoint a valid index selects. *)
Definition kpAt (kpts : list KeyPoint) (i : Z) : KeyPoint :=
  nth (Z.to_nat i) kpts (mkKeyPoint (Point2f.mk D.zero D.zero)).

(** Both indices of the match are within their keypoint vectors. *)
Definition validMatch (kptsPrev kptsCurr : list KeyPoint) (m : DMatch) : Prop :=
  0 <= queryIdx m < Z.of_nat (length kptsPrev)
  /\ 0 <= trainIdx m < Z.of_nat (length kptsCurr).

(** The displacement of a correspondence, and its mean and standard
    deviation over all correspondences of the frame. *)
Definition matchDist (kptsPrev kptsCurr : list KeyPoint) (m : DMatch) : double :=
  Point2f.norm (Point2f.minus (pt (kpAt kptsCurr (trainIdx m))) (pt (kpAt kptsPrev (queryIdx m)))).

Definition frameDistMean (kptsPrev kptsCurr : list KeyPoint) (frameMatches : list DMatch)
    : double :=
  D.div (fold_left D.add (map (matchDist kptsPrev kptsCurr) frameMatches) D.zero)
        (size_d frameMatches).

Definition frameDistStd (kptsPrev kptsCurr : list KeyPoint) (frameMatches : list DMatch)
    : double :=
  D.sqrt (D.sub
            (D.div (fold_left D.add
                      (map (fun m => D.pow2 (matchDist kptsPrev kptsCurr m)) frameMatches)
                      D.zero)
                   (size_d frameMatches))
            (D.pow2 (frameDistMean kptsPrev kptsCurr frameMatches))).

(** The test a correspondence passes to be kept for the box [roi]. *)
Definition keepsMatch (containsPt : Rect.t -> Point2f.t -> bool) (roi : Rect.t)
    (kptsPrev kptsCurr : list KeyPoint) (frameMatches : list DMatch) (m : DMatch) : bool :=
  containsPt (smallerBox kptShrinkFactor roi) (pt (kpAt kptsCurr (trainIdx m)))
  && containsPt (smallerBox kptShrinkFactor roi) (pt (kpAt kptsPrev (queryIdx m)))
  && inBand distThreshold (frameDistMean kptsPrev kptsCurr frameMatches)
       (frameDistStd kptsPrev kptsCurr frameMatches) (matchDist kptsPrev kptsCurr m).

(** The ratio one visit of the camera loops contributes, if any. *)
Definition pairRatio (kptsPrev kptsCurr : list KeyPoint) (it1 it2 : DMatch) : option double :=
  let distCurr := Point2f.norm (Point2f.minus (pt (kpAt kptsCurr (trainIdx it1)))
                                              (pt (kpAt kptsCurr (trainIdx it2)))) in
  let distPrev := Point2f.norm (Point2f.minus (pt (kpAt kptsPrev (queryIdx it1)))
                                              (pt (kpAt kptsPrev (queryIdx it2)))) in
  if D.gtb distPrev D.epsilon && D.geb distCurr minDist
  then Some (D.div distCurr distPrev) else None.

(** All the ratios the two loops collect, in the order of the visits: every
    correspondence but the last against every correspondence but the first. *)
Definition visitedRatios (kptsPrev kptsCurr : list KeyPoint) (ms : list DMatch)
    : list double :=
  flat_map (fun it1 => omap (pairRatio kptsPrev kptsCurr it1) (tail ms)) (removelast ms).

(** ** The frame loop of FinalProject_Camera.cpp *)

(** The ring buffer (lines 132-140): when the buffer has reached
    [dataBufferSize] frames its first frame is erased, then the new frame is
    pushed.  The comparison is between [size()] and an [int], which is
    converted to [size_t] first; erasing from an empty vector is undefined. *)
Definition pushFrame {A} (dataBufferSize : Z) (dataBuffer : list A) (frame : A)
    : Outcome (list A) :=
  let bound := if dataBufferSize <? 0 then dataBufferSize + 2 ^ 64 else dataBufferSize in
  if bound <=? Z.of_nat (length dataBuffer) then
    match dataBuffer with
    | [] => Undefined
    | _ :: rest => Returns (rest ++ [frame])
    end
  else Returns (dataBuffer ++ [frame]).

(** The buffer after a sequence of frames has been pushed. *)
Fixpoint pushFrames {A} (dataBufferSize : Z) (dataBuffer : list A) (frames : list A)
    : Outcome (list A) :=
  match frames with
  | [] => Returns dataBuffer
  | frame :: rest =>
      dataBuffer' ← pushFrame dataBufferSize dataBuffer frame;
      pushFrames dataBufferSize dataBuffer' rest
  end.

(** The two search loops of lines 346-362: the position of the last box
    whose [boxID] is [id]; the pointer stays uninitialised when there is none. *)
Fixpoint findBox (id : Z) (boxes : list BoundingBox) (found : option nat) (i : nat)
    : option nat :=
  match boxes with
  | [] => found
  | it2 :: rest => findBox id rest (if id =? boxID it2 then Some i else found) (S i)
  end.

(** The entries of a [std::map<int,int>] in the order a traversal visits
    them: ascending keys. *)
Definition keyLe (a b : Z * Z) : Prop := fst a <= fst b.
#[export] Instance keyLe_dec (a b : Z * Z) : Decision (keyLe a b) := Z_le_dec (fst a) (fst b).
Definition mapEntries (m : gmap Z Z) : list (Z * Z) := merge_sort keyLe (map_to_list m).

Section TrackFrame.
Variable containsPt : Rect.t -> Point2f.t -> bool.
Variables (TTCcalModel : Z) (sensorFrameRate : double).
Variables (kptsPrev kptsCurr : list KeyPoint) (frameMatches : list DMatch).
(** The value the uninitialised local [ttcLidar] holds in the iteration for
    a given entry. *)
Variable ttcLidar0 : Z * Z -> double.

(** One iteration of the loop over [bbMatches]: [currBB] and [prevBB] point
    into the box vectors of the two frames, and the current box is updated
    in place.  Using a pointer that no search has set is undefined; the
    guard reads [currBB] first and [prevBB] only when the current box has
    lidar points. *)
Definition processMatch (prevBoxes : list BoundingBox)
    (s : list BoundingBox * RunState) (it1 : Z * Z)
    : Outcome (list BoundingBox * RunState) :=
  let currBoxes := fst s in
  match findBox (snd it1) currBoxes None 0 with
  | None => Undefined
  | Some ic =>
      match currBoxes !! ic with
      | None => Undefined
      | Some currBB =>
          if 0 <? Z.of_nat (length (lidarPoints currBB)) then
            match findBox (fst it1) prevBoxes None 0 with
            | None => Undefined
            | Some ip =>
                match prevBoxes !! ip with
                | None => Undefined
                | Some prevBB =>
                    res ← processPair containsPt TTCcalModel sensorFrameRate
                            kptsPrev kptsCurr frameMatches prevBB currBB
                            (ttcLidar0 it1) (snd s);
                    Returns (<[ic := fst res]> currBoxes, snd res)
                end
            end
          else Returns s
      end
  end.

Fixpoint processMatches (prevBoxes : list BoundingBox)
    (s : list BoundingBox * RunState) (entries : list (Z * Z))
    : Outcome (list BoundingBox * RunState) :=
  match entries with
  | [] => Returns s
  | it1 :: rest =>
      s' ← processMatch prevBoxes s it1;
      processMatches prevBoxes s' rest
  end.

(** Lines 303-415 for one frame: the boxes are matched into a fresh map,
    then every entry is processed. *)
Definition trackFrame (prevBoxes currBoxes : list BoundingBox) (st : RunState)
    : Outcome (list BoundingBox * RunState) :=
  processMatches prevBoxes (currBoxes, st)
    (mapEntries (matchBoundingBoxes ∅ prevBoxes currBoxes)).
End TrackFrame.

(** ** Further notions *)

(** The number of lidar points held by all the boxes together. *)
Definition totalLidarPoints (boxes : list BoundingBox) : nat :=
  foldr (fun b n => (length (lidarPoints b) + n)%nat) 0%nat boxes.

(** The pixel lies in exactly one shrunk rectangle. *)
Definition inOneBox (project : LidarPoint.t -> double * double * double)
    (shrinkFactor : float) (boxes : list BoundingBox) (p : LidarPoint.t) : bool :=
  Nat.eqb (length (enclosingBoxes shrinkFactor 0 boxes (pixelOf project p))) 1.

(** Two lidar points with the same forward distance and reflectivity. *)
Definition sameXR (p q : LidarPoint.t) : Prop :=
  LidarPoint.x p = LidarPoint.x q /\ LidarPoint.r p = LidarPoint.r q.

(** A zero of either sign, or NaN. *)
Definition zeroOrNaN (v : spec_float) : bool :=
  match v with
  | S754_zero _ | S754_nan => true
  | _ => false
  end.

(** The final velocity and acceleration of a run. *)
Definition finalVel (res : list double * double * double) : double := snd (fst res).
Definition finalAcc (res : list double * double * double) : double := snd res.

(** The value 1.0. *)
Definition oneD : double := D.of_Z 1.

(** Two keypoints 200 pixels apart that do not move between the frames. *)
Definition staticKpts : list KeyPoint := [keyPointAt 0 0; keyPointAt 200 0].
Definition staticMatches : list DMatch := [mkDMatch 0 0; mkDMatch 1 1].

(** A frame pair for the examples: one box in each frame, with lidar points
    and the four keypoints inside. *)
Definition examplePrevBoxes : list BoundingBox :=
  [mkBoundingBox 0 (Rect.mk (-100) (-100) 450 450) (threePoints 10) []].
Definition exampleCurrBoxes : list BoundingBox :=
  [mkBoundingBox 5 (Rect.mk (-100) (-100) 450 450) (threePoints 9) []].

(** Apart from its keypoint matches a box comes back as it was. *)
Definition sameBox (b b' : BoundingBox) : Prop :=
  boxID b' = boxID b /\ roi b' = roi b /\ lidarPoints b' = lidarPoints b.

(** Both result vectors have grown by the same number of values. *)
Definition grownTogether (st st' : RunState) : Prop :=
  exists n, length (lidarBasedTTC st') = (length (lidarBasedTTC st) + n)%nat
            /\ length (cameraBasedTTC st') = (length (cameraBasedTTC st) + n)%nat.

(** ** The two outlier filters in the words of the specification *)




(** [v] lies within mean ± k·stddev, the bounds included, and strictly
    between the two bounds. *)
Definition within (k mean stddev v : double) : Prop :=
  D.leb (D.sub mean (D.mul k stddev)) v = true
  /\ D.leb v (D.add mean (D.mul k stddev)) = true.

Definition strictlyWithin (k mean stddev v : double) : Prop :=
  D.ltb (D.sub mean (D.mul k stddev)) v = true
  /\ D.ltb v (D.add mean (D.mul k stddev)) = true.

Definition onePointSeven : double := F.to_double (F.of_double (D.lit 17 10)).






(** [cvRound] of a [float]: the nearest integer, ties to the even one, as
    OpenCV's [saturate_cast<int>] converts a coordinate (outside the range
    of [int], and for NaN, the conversion instruction gives the smallest
    [int]). *)
Definition cvRound (v : float) : Z :=
  match v with
  | S754_zero _ => 0
  | S754_finite s m e =>
      let a := match e with
               | Zneg p =>
                   let d := Z.pow_pos 2 p in
                   let q := Zpos m / d in
                   match (2 * (Zpos m mod d) ?= d) with
                   | Lt => q
                   | Gt => q + 1
                   | Eq => if Z.even q then q else q + 1
                   end
               | _ => Z.shiftl (Zpos m) e
               end in
      let t := if s then - a else a in
      if (D.int_min <=? t) && (t <? 2 ^ 31) then t else D.int_min
  | _ => D.int_min
  end.

(** [cv::Rect::contains] on a [cv::Point2f] in the OpenCV versions that
    first convert the point to [cv::Point2i], rounding each coordinate. *)
Definition containsRounded (a : Rect.t) (p : Point2f.t) : bool :=
  Rect.contains a (cvRound (Point2f.x p), cvRound (Point2f.y p)).

(** The rectangle with a 10% inset: moved in by half of 0.10 times the
    width and the height, and 0.10 times narrower and lower, 0.10 being a
    single-precision number and every field truncated to [int]. *)
Definition oneTenth : float := F.of_double (D.lit 1 10).

Definition tenPercentInset (roi : Rect.t) : Rect.t :=
  Rect.mk
    (D.to_int (D.add (D.of_Z (Rect.x roi))
                 (D.div (F.to_double (F.mul oneTenth (F.of_Z (Rect.width roi)))) (D.of_Z 2))))
    (D.to_int (D.add (D.of_Z (Rect.y roi))
                 (D.div (F.to_double (F.mul oneTenth (F.of_Z (Rect.height roi)))) (D.of_Z 2))))
    (F.to_int (F.mul (F.of_Z (Rect.width roi)) (F.sub (F.of_Z 1) oneTenth)))
    (F.to_int (F.mul (F.of_Z (Rect.height roi)) (F.sub (F.of_Z 1) oneTenth))).

(** A correspondence is kept for the rectangle [roi]: its previous and its
    current position lie inside the inset rectangle, [inside] being the
    containment test, and its displacement lies strictly within
    mean ± 1.7·stddev of the displacements of the whole frame. *)
Definition insideInsetAndBand (inside : Rect.t -> Point2f.t -> bool) (roi : Rect.t)
    (kptsPrev kptsCurr : list KeyPoint) (frameMatches : list DMatch) (m : DMatch) : bool :=
  inside (tenPercentInset roi) (pt (kpAt kptsPrev (queryIdx m)))
  && inside (tenPercentInset roi) (pt (kpAt kptsCurr (trainIdx m)))
  && D.ltb (D.sub (frameDistMean kptsPrev kptsCurr frameMatches)
              (D.mul onePointSeven (frameDistStd kptsPrev kptsCurr frameMatches)))
       (matchDist kptsPrev kptsCurr m)
  && D.ltb (matchDist kptsPrev kptsCurr m)
       (D.add (frameDistMean kptsPrev kptsCurr frameMatches)
          (D.mul onePointSeven (frameDistStd kptsPrev kptsCurr frameMatches))).

(** Eight correspondences in the rectangle (0, 0, 1000, 1000): keypoint [i]
    moves to the right by 29, 3, 6, 30, 2, 0, 2 and 7 pixels.  The second
    one lies in the border that the inset removes; the displacement of the
    first is 1.66 standard deviations from the mean, that of the fourth
    1.75. *)
Definition eightPrev : list KeyPoint :=
  [keyPointAt 200 100; keyPointAt 10 150; keyPointAt 200 200; keyPointAt 200 250;
   keyPointAt 200 300; keyPointAt 200 350; keyPointAt 200 400; keyPointAt 200 450].
Definition eightCurr : list KeyPoint :=
  [keyPointAt 229 100; keyPointAt 13 150; keyPointAt 206 200; keyPointAt 230 250;
   keyPointAt 202 300; keyPointAt 200 350; keyPointAt 202 400; keyPointAt 207 450].
Definition eightMatches : list DMatch :=
  [mkDMatch 0 0; mkDMatch 1 1; mkDMatch 2 2; mkDMatch 3 3;
   mkDMatch 4 4; mkDMatch 5 5; mkDMatch 6 6; mkDMatch 7 7].
(** *** The order of the comparison operators *)

Lemma ltb_irrefl (v : spec_float) : SFltb v v = false.
Proof.
  unfold SFltb, SFcompare.
  destruct v as [s|s| |s m e]; try destruct s; try reflexivity;
    rewrite Z.compare_refl; change (Pos.compare_cont Eq m m) with (Pos.compare m m);
    rewrite Pos.compare_refl; reflexivity.
Qed.

Ltac order_cases :=
  repeat match goal with
    | H : context [Z.compare ?a ?b] |- _ => destruct (Z.compare_spec a b)
    | |- context [Z.compare ?a ?b] => destruct (Z.compare_spec a b)
    | H : context [Pos.compare_cont Eq ?a ?b] |- _ =>
        change (Pos.compare_cont Eq a b) with (Pos.compare a b) in H;
        destruct (Pos.compare_spec a b)
    | |- context [Pos.compare_cont Eq ?a ?b] =>
        change (Pos.compare_cont Eq a b) with (Pos.compare a b);
        destruct (Pos.compare_spec a b)
    end; subst; simpl in *; try discriminate; try reflexivity; try lia.

Lemma ltb_trans (a b c : spec_float) :
  SFltb a b = true -> SFltb b c = true -> SFltb a c = true.
Proof.
  unfold SFltb, SFcompare.
  destruct a as [sa|sa| |sa ma ea], b as [sb|sb| |sb mb eb], c as [sc|sc| |sc mc ec];
    try destruct sa; try destruct sb; try destruct sc;
    simpl; intros Hab Hbc; try discriminate; try reflexivity; order_cases.
Qed.

Lemma compare_antisym (a b : spec_float) :
  SFcompare b a = option_map CompOpp (SFcompare a b).
Proof.
  unfold SFcompare.
  destruct a as [sa|sa| |sa ma ea], b as [sb|sb| |sb mb eb];
    try destruct sa; try destruct sb; simpl; try reflexivity;
    rewrite (Z.compare_antisym ea eb);
    change (Pos.compare_cont Eq mb ma) with (Pos.compare mb ma);
    change (Pos.compare_cont Eq ma mb) with (Pos.compare ma mb);
    rewrite (Pos.compare_antisym ma mb);
    destruct (Z.compare ea eb); simpl; try reflexivity;
    destruct (Pos.compare ma mb); reflexivity.
Qed.

Lemma ltb_asym (a b : spec_float) : SFltb a b = true -> SFltb b a = false.
Proof.
  unfold SFltb. rewrite (compare_antisym a b).
  destruct (SFcompare a b) as [[| |]|]; simpl; congruence.
Qed.

Lemma eqb_not_ltb (a b : spec_float) : SFeqb a b = true -> SFltb b a = false.
Proof.
  unfold SFltb, SFeqb. rewrite (compare_antisym a b).
  destruct (SFcompare a b) as [[| |]|]; simpl; congruence.
Qed.

(** A value that is not NaN and is not below [b] is above whatever [b]
    is above. *)
Lemma ltb_not_below (a b c : spec_float) :
  SFltb a b = true -> SFltb c b = false -> is_nan c = false -> SFltb a c = true.
Proof.
  unfold SFltb, SFcompare.
  destruct a as [sa|sa| |sa ma ea], b as [sb|sb| |sb mb eb], c as [sc|sc| |sc mc ec];
    try destruct sa; try destruct sb; try destruct sc;
    simpl; intros Hab Hcb Hc; try discriminate; try reflexivity; order_cases.
Qed.

(** Whatever lies strictly between two values is finite. *)
Lemma ltb_between_finite (lo v hi : spec_float) :
  SFltb lo v = true -> SFltb v hi = true -> is_finite v = true.
Proof.
  unfold SFltb, SFcompare.
  destruct v as [s|s| |s m e]; try reflexivity.
  - destruct lo as [sl|sl| |sl ml el], hi as [sh|sh| |sh mh eh];
      try destruct sl; try destruct sh; destruct s; simpl; intros; discriminate.
  - destruct lo as [sl|sl| |sl ml el]; try destruct sl; simpl; intros; discriminate.
Qed.

(** [v - v] is [+0] for a finite [v]. *)
Lemma sub_diag_finite (v : spec_float) : is_finite v = true -> D.sub v v = D.zero.
Proof.
  destruct v as [s|s| |s m e]; try discriminate; intros _.
  - destruct s; reflexivity.
  - unfold D.sub, SFsub. rewrite Z.sub_diag. reflexivity.
Qed.

(** A division by [+0] never gives a finite value. *)
Lemma div_zero_not_finite (v : spec_float) : is_finite (D.div v D.zero) = false.
Proof. destruct v as [s|s| |s m e]; reflexivity. Qed.


(** *** Calls that return *)

Lemma bind_Returns {A B} (a : A) (k : A -> Outcome B) : (Returns a ≫= k) = k a.
Proof. reflexivity. Qed.

Lemma at_valid (kpts : list KeyPoint) (i : Z) :
  0 <= i < Z.of_nat (length kpts) -> at_ kpts i = Returns (kpAt kpts i).
Proof.
  intros [H0 H1]. unfold at_, kpAt.
  destruct (Z.ltb_spec i 0) as [|_]; [lia|].
  destruct (nth_lookup_or_length kpts (Z.to_nat i)
              (mkKeyPoint (Point2f.mk D.zero D.zero))) as [-> | Hge]; [reflexivity|].
  lia.
Qed.

(** ** The closest-point loop computes a minimum *)

Section MinFold.
Variable full : list LidarPoint.t.

Lemma fold_min_below (l : list LidarPoint.t) (m : double) :
  fold_left (minStep full) l m = m \/ D.ltb (fold_left (minStep full) l m) m = true.
Proof.
  revert m. induction l as [|a l IH]; intros m; simpl; [left; reflexivity|].
  unfold minStep at 2 4. destruct (survives full a); [|apply IH].
  unfold D.gtb. destruct (D.ltb (LidarPoint.x a) m) eqn:Hlt; [|apply IH].
  right. destruct (IH (LidarPoint.x a)) as [-> | H]; [exact Hlt|].
  exact (ltb_trans _ _ _ H Hlt).
Qed.


Lemma fold_min_attained (l : list LidarPoint.t) (m : double) :
  fold_left (minStep full) l m = m
  \/ exists a, In a l /\ survives full a = true
                /\ fold_left (minStep full) l m = LidarPoint.x a.
Proof.
  revert m. induction l as [|b l IH]; intros m; simpl; [left; reflexivity|].
  unfold minStep at 2 4. destruct (survives full b) eqn:Hk.
  - unfold D.gtb. destruct (D.ltb (LidarPoint.x b) m) eqn:Hlt.
    + destruct (IH (LidarPoint.x b)) as [E | (a & Hin & Ha & E)].
      * right. exists b. split; [left; reflexivity|]. split; assumption.
      * right. exists a. split; [right; assumption|]. split; assumption.
    + destruct (IH m) as [E | (a & Hin & Ha & E)]; [left; assumption|].
      right. exists a. split; [right; assumption|]. split; assumption.
  - destruct (IH m) as [E | (a & Hin & Ha & E)]; [left; assumption|].
    right. exists a. split; [right; assumption|]. split; assumption.
Qed.
End MinFold.


(** A surviving value is finite, and so is every result of the loop. *)
Lemma survives_finite (pts : list LidarPoint.t) (p : LidarPoint.t) :
  survives pts p = true -> is_finite (LidarPoint.x p) = true.
Proof.
  unfold survives, inBand, D.gtb, D.ltb. intros H.
  apply andb_prop in H as [H _]. apply andb_prop in H as [H1 H2].
  exact (ltb_between_finite _ _ _ H1 H2).
Qed.

Lemma closestX_finite (pts : list LidarPoint.t) : is_finite (closestX pts) = true.
Proof.
  unfold closestX.
  destruct (fold_min_attained pts pts minXInit) as [-> | (a & _ & Hk & ->)]; [reflexivity|].
  exact (survives_finite _ _ Hk).
Qed.

(** Without such a point the loop leaves the start value. *)
Lemma closestX_default (pts : list LidarPoint.t) :
  ~ hasSurvivor pts -> closestX pts = minXInit.
Proof.
  intros Hno. unfold closestX.
  destruct (fold_min_attained pts pts minXInit) as [E | (a & Ha & Hk & E)]; [exact E|].
  destruct (fold_min_below pts pts minXInit) as [E' | Hlt]; [exact E'|].
  exfalso. apply Hno. exists a. rewrite <- E. auto.
Qed.

(** *** The fields the lidar estimator writes *)

(** The three values [computeTTCLidar] leaves in its reference parameters. *)
Lemma computeTTCLidar_fields
    (prev curr : list LidarPoint.t) (frameRate TTC0 vel acc : double) (model : Z) :
  let r := computeTTCLidar prev curr frameRate TTC0 vel acc model in
  let dT := dT_of frameRate in
  let cv := ttcConstantVelocity (closestX prev) (closestX curr) dT in
  let acc1 := if D.neqb vel unknown && D.eqb acc unknown
              then accelEstimate (closestX prev) (closestX curr) vel dT else acc in
  vehicleAcc r = acc1
  /\ TTC r = (if model =? 0 then cv
              else if D.eqb acc1 unknown then cv
              else quadraticTTC TTC0 vel acc1 (closestX curr))
  /\ vehicleVel r = (if model =? 0 then vel
                     else if D.eqb vel unknown && D.eqb acc1 unknown
                     then closingVelocity (closestX prev) (closestX curr) dT
                     else D.add vel (D.mul acc1 (F.to_double dT))).
Proof.
  unfold computeTTCLidar, quadraticTTC, accelEstimate.
  destruct (D.neqb vel unknown && D.eqb acc unknown); destruct (model =? 0); simpl;
    try (split; [reflexivity|split; reflexivity]);
    match goal with |- context [D.eqb ?x unknown] => destruct (D.eqb x unknown) end;
    try (split; [reflexivity|split; reflexivity]);
    match goal with |- context [solveQuadratic ?v ?a ?m] => destruct (solveQuadratic v a m) end;
    (split; [reflexivity|split; reflexivity]).
Qed.

(** *** Claim C1 *)








(** *** Claim C2 *)

(** C2 fails as stated: [computeTTCLidar] has no test for empty lists.  On
    two empty lists the means are 0/0, both minima stay at 1e9 and the TTC
    is +infinity; on an empty previous list and a current frame whose
    closest point is at 9 m the TTC is a positive finite number, about
    9e-10 s.  Neither is the marker. *)
Lemma C2_empty_lists_counterexample :
  let both := computeTTCLidar [] [] (D.of_Z 10) D.nan unknown unknown 0 in
  let one := computeTTCLidar [] (threePoints 9) (D.of_Z 10) D.nan unknown unknown 0 in
  XMean [] = D.nan
  /\ closestX [] = minXInit
  /\ TTC both = S754_infinity false
  /\ is_nan (TTC one) = false
  /\ is_finite (TTC one) = true
  /\ D.gtb (TTC one) D.zero = true.
Proof. vm_compute. repeat split; reflexivity. Qed.

(** C2, amended.  The frame loop runs the estimators for a matched pair only
    when both boxes have lidar points: for a pair with an empty cluster
    nothing is computed, no TTC is recorded, and the box and the state that
    later pairs see are unchanged.  The functions themselves do not
    short-circuit.  [clusterKptMatchesWithROI] on an empty correspondence
    list returns the box as it was.  [computeTTCLidar] on two empty lists
    carries out its divisions, the means being NaN and both minima 1e9:
    where it uses the constant-velocity formula (model 0, or another model
    while the acceleration it holds after its update is the sentinel -1e9)
    the TTC written is not finite; otherwise the TTC is that of the
    quadratic solve at [minXCurr = 1e9], which can be a finite number (it
    is for velocity 1 and acceleration 1).  [computeTTCCamera] on a single
    correspondence finds no pair and returns the NaN marker. *)
Theorem C2_empty_cluster_skipped_by_frame_loop :
  (forall containsPt TTCcalModel sensorFrameRate kptsPrev kptsCurr frameMatches
          prevBB currBB ttcLidar0 st,
     lidarPoints prevBB = [] \/ lidarPoints currBB = [] ->
     processPair containsPt TTCcalModel sensorFrameRate kptsPrev kptsCurr frameMatches
       prevBB currBB ttcLidar0 st = Returns (currBB, st))
  /\ (forall containsPt boundingBox kptsPrev kptsCurr,
        clusterKptMatchesWithROI containsPt boundingBox kptsPrev kptsCurr []
        = Returns boundingBox)
  /\ (XMean [] = D.nan /\ IMean [] = D.nan /\ closestX [] = D.of_Z 1000000000)
  /\ (forall frameRate TTC0 vel acc TTCcalModel,
        let r := computeTTCLidar [] [] frameRate TTC0 vel acc TTCcalModel in
        (TTCcalModel = 0 \/ D.eqb (vehicleAcc r) unknown = true ->
         is_finite (TTC r) = false)
        /\ (TTCcalModel <> 0 -> D.eqb (vehicleAcc r) unknown = false ->
            TTC r = quadraticTTC TTC0 vel (vehicleAcc r) (D.of_Z 1000000000)))
  /\ is_finite (TTC (computeTTCLidar [] [] (D.of_Z 10) D.nan (D.of_Z 1) (D.of_Z 1) 1)) = true
  /\ (forall kptsPrev kptsCurr m frameRate,
        computeTTCCamera kptsPrev kptsCurr [m] frameRate = Returns D.nan).
Proof.
  split; [|split; [|split; [|split; [|split]]]].
  - intros ? ? ? ? ? ? prevBB currBB ? ? [E | E]; unfold processPair; rewrite E; simpl.
    + rewrite andb_false_r. reflexivity.
    + reflexivity.
  - intros ? [id rect pts ms] ? ?. reflexivity.
  - repeat split; vm_compute; reflexivity.
  - intros frameRate TTC0 vel acc model r.
    destruct (computeTTCLidar_fields [] [] frameRate TTC0 vel acc model) as (Ea & Et & _).
    fold r in Ea, Et. rewrite <- Ea in Et.
    assert (Hcv : is_finite (ttcConstantVelocity (closestX []) (closestX []) (dT_of frameRate))
                  = false) by apply div_zero_not_finite.
    split.
    + intros [-> | Hu]; rewrite Et.
      * exact Hcv.
      * destruct (model =? 0); [exact Hcv|]. rewrite Hu. exact Hcv.
    + intros Hm Hk. rewrite Et.
      destruct (Z.eqb_spec model 0) as [->|_]; [contradiction|].
      rewrite Hk. reflexivity.
  - vm_compute. reflexivity.
  - reflexivity.
Qed.

Lemma C2_empty_cluster_skipped_by_frame_loop_witness :
  let prevBB := boxAt 1 0 0 100 100 in
  let currBB := mkBoundingBox 2 (Rect.mk 0 0 100 100) (threePoints 9) [] in
  let st := mkRunState unknown unknown [] [] in
  (lidarPoints prevBB = [] \/ lidarPoints currBB = [])
  /\ processPair containsExact 0 (D.of_Z 10) fourPrev fourCurr fourMatches
       prevBB currBB D.nan st = Returns (currBB, st).
Proof.
  intros prevBB currBB st.
  assert (H : lidarPoints prevBB = [] \/ lidarPoints currBB = []) by (left; reflexivity).
  split; [exact H|].
  exact (proj1 C2_empty_cluster_skipped_by_frame_loop containsExact 0 (D.of_Z 10)
           fourPrev fourCurr fourMatches prevBB currBB D.nan st H).
Defined.
(** *** Claim C3 *)

(** C3 fails as stated: with equal minima (the same three points in both
    frames) the constant-velocity TTC is +infinity, which is neither a
    positive finite number nor the marker; and for a receding object
    (minima 9 then 10) the TTC is a negative number. *)
Lemma C3_equal_minima_counterexample :
  let same := computeTTCLidar (threePoints 10) (threePoints 10) (D.of_Z 10)
                D.nan unknown unknown 0 in
  let away := computeTTCLidar (threePoints 9) (threePoints 10) (D.of_Z 10)
                D.nan unknown unknown 0 in
  closestX (threePoints 10) = closestX (threePoints 10)
  /\ TTC same = S754_infinity false
  /\ ~ positiveOrMarker (TTC same)
  /\ D.ltb (TTC away) D.zero = true
  /\ ~ positiveOrMarker (TTC away).
Proof.
  split; [reflexivity|].
  split; [vm_compute; reflexivity|].
  split; [intros [H | [H _]]; vm_compute in H; discriminate|].
  split; [vm_compute; reflexivity|].
  intros [H | [_ H]]; vm_compute in H; discriminate.
Qed.

(** C3, amended.  When the two minima are equal the constant-velocity formula
    divides by zero and the TTC written is never a finite number (it is an
    infinity, or NaN); the call returns normally and substitutes no marker.
    The same holds for the constant-acceleration model called on the
    uninitialised state, which falls back to that formula.  Nor is the TTC
    always positive: for the minima 9 m and then 10 m at frame rate 10 the
    constant-velocity TTC is below zero, about -1.0 s. *)
Theorem C3_equal_minima_not_finite
    (prev curr : list LidarPoint.t) (frameRate TTC0 vel acc : double) :
  (closestX prev = closestX curr ->
   is_finite (TTC (computeTTCLidar prev curr frameRate TTC0 vel acc 0)) = false
   /\ is_finite (TTC (computeTTCLidar prev curr frameRate TTC0 unknown unknown 1)) = false)
  /\ (closestX prev = D.of_Z 9 -> closestX curr = D.of_Z 10 -> frameRate = D.of_Z 10 ->
      let t := TTC (computeTTCLidar prev curr frameRate TTC0 vel acc 0) in
      D.ltb t D.zero = true
      /\ (- (1 # 1) - (1 # 10000000) < SF2Q t < - (1 # 1))%Q).
Proof.
  split.
  - intros E.
    assert (Z0 : D.sub (closestX prev) (closestX curr) = D.zero).
    { rewrite E. apply sub_diag_finite, closestX_finite. }
    split.
    + unfold computeTTCLidar.
      destruct (D.neqb vel unknown && D.eqb acc unknown); simpl;
        unfold ttcConstantVelocity; rewrite Z0; apply div_zero_not_finite.
    + unfold computeTTCLidar.
      change (D.neqb unknown unknown) with false.
      change (D.eqb unknown unknown) with true. simpl.
      unfold ttcConstantVelocity. rewrite Z0. apply div_zero_not_finite.
  - intros Hp Hc Hf t.
    assert (E : t = ttcConstantVelocity (D.of_Z 9) (D.of_Z 10) (dT_of (D.of_Z 10))).
    { subst t. unfold computeTTCLidar. rewrite Hp, Hc, Hf.
      destruct (D.neqb vel unknown && D.eqb acc unknown); reflexivity. }
    rewrite E. vm_compute. split; [reflexivity|split; reflexivity].
Qed.

Lemma C3_equal_minima_not_finite_witness :
  closestX (threePoints 10) = closestX (threePoints 10)
  /\ is_finite (TTC (computeTTCLidar (threePoints 10) (threePoints 10) (D.of_Z 10)
                       D.nan unknown unknown 0)) = false
  /\ closestX (threePoints 9) = D.of_Z 9
  /\ closestX (threePoints 10) = D.of_Z 10
  /\ D.ltb (TTC (computeTTCLidar (threePoints 9) (threePoints 10) (D.of_Z 10)
                   D.nan unknown unknown 0)) D.zero = true.
Proof.
  assert (E9 : closestX (threePoints 9) = D.of_Z 9) by (vm_compute; reflexivity).
  assert (E10 : closestX (threePoints 10) = D.of_Z 10) by (vm_compute; reflexivity).
  split; [reflexivity|].
  split.
  { exact (proj1 (proj1 (C3_equal_minima_not_finite (threePoints 10) (threePoints 10)
                           (D.of_Z 10) D.nan unknown unknown) eq_refl)). }
  split; [exact E9|]. split; [exact E10|].
  exact (proj1 (proj2 (C3_equal_minima_not_finite (threePoints 9) (threePoints 10)
                         (D.of_Z 10) D.nan unknown unknown) E9 E10 eq_refl)).
Defined.

(** *** Claim C4 *)

(** C4, at the input where the code departs from it.  With an empty match
    set there is no valid pair, and the claim asks for the NaN marker; the
    outer loop bound [kptMatches.end() - 1] then lies before [begin()], the
    loop body runs on an element the vector does not have, and the call has
    no defined result. *)
Theorem C4_empty_match_set_undefined
    (kptsPrev kptsCurr : list KeyPoint) (frameRate : double) :
  visitedRatios kptsPrev kptsCurr [] = []
  /\ computeTTCCamera kptsPrev kptsCurr [] frameRate = Undefined
  /\ computeTTCCamera kptsPrev kptsCurr [] frameRate <> Returns D.nan.
Proof. split; [reflexivity|]. split; [reflexivity|discriminate]. Qed.

(** A single correspondence gives no pair and the NaN marker. *)
Lemma computeTTCCamera_single
    (kptsPrev kptsCurr : list KeyPoint) (m : DMatch) (frameRate : double) :
  computeTTCCamera kptsPrev kptsCurr [m] frameRate = Returns D.nan.
Proof. reflexivity. Qed.

(** The model of [std::sort] rearranges its input into ascending order. *)
Lemma insertSorted_Permutation (v : double) (l : list double) :
  Permutation (insertSorted v l) (v :: l).
Proof.
  induction l as [|h t IH]; simpl; [reflexivity|].
  destruct (D.ltb v h); [reflexivity|].
  rewrite IH. apply perm_swap.
Qed.

Lemma sort_Permutation (l : list double) : Permutation (sort l) l.
Proof.
  induction l as [|h t IH]; simpl; [reflexivity|].
  rewrite insertSorted_Permutation, IH. reflexivity.
Qed.

Lemma insertSorted_ascending (v : double) (l : list double) :
  Sorted.Sorted (fun a b => D.ltb b a = false) l ->
  Sorted.Sorted (fun a b => D.ltb b a = false) (insertSorted v l).
Proof.
  induction 1 as [|h t Hs IH Hh]; simpl; [repeat constructor|].
  destruct (D.ltb v h) eqn:E.
  - constructor; [constructor; assumption|]. constructor. exact (ltb_asym _ _ E).
  - constructor; [exact IH|].
    destruct t as [|h' t']; simpl; [constructor; exact E|].
    destruct (D.ltb v h'); constructor; [exact E|].
    inversion Hh; assumption.
Qed.

Lemma sort_ascending (l : list double) :
  Sorted.Sorted (fun a b => D.ltb b a = false) (sort l).
Proof.
  induction l as [|h t IH]; simpl; [constructor|]. apply insertSorted_ascending, IH.
Qed.

(** On a non-empty match set with valid indices the estimator returns: NaN
    when the loops collect no ratio, else [-dT / (1 - median)] for the
    median of the collected ratios. *)
Section CameraFacts.
Variables kptsPrev kptsCurr : list KeyPoint.

Lemma innerLoop_valid (it1 : DMatch) (inner : list DMatch) (distRatios : list double) :
  Forall (validMatch kptsPrev kptsCurr) inner ->
  innerLoop kptsPrev kptsCurr (kpAt kptsCurr (trainIdx it1)) (kpAt kptsPrev (queryIdx it1))
    inner distRatios
  = Returns (distRatios ++ omap (pairRatio kptsPrev kptsCurr it1) inner).
Proof.
  intros Hv. revert distRatios.
  induction Hv as [|m ms [Hq Ht] _ IH]; intros distRatios; cbn [innerLoop].
  - rewrite app_nil_r. reflexivity.
  - rewrite (at_valid kptsCurr _ Ht), bind_Returns, (at_valid kptsPrev _ Hq), bind_Returns.
    rewrite IH. cbn [omap list_omap]. unfold pairRatio at 2.
    match goal with |- context [if ?c then distRatios ++ _ else distRatios] => destruct c end;
      [rewrite <- app_assoc|]; reflexivity.
Qed.

Lemma outerLoop_valid (outer inner : list DMatch) (distRatios : list double) :
  Forall (validMatch kptsPrev kptsCurr) outer ->
  Forall (validMatch kptsPrev kptsCurr) inner ->
  outerLoop kptsPrev kptsCurr outer inner distRatios
  = Returns (distRatios
             ++ flat_map (fun it1 => omap (pairRatio kptsPrev kptsCurr it1) inner) outer).
Proof.
  intros Ho Hi. revert distRatios.
  induction Ho as [|m ms [Hq Ht] _ IH]; intros distRatios; cbn [outerLoop flat_map].
  - rewrite app_nil_r. reflexivity.
  - rewrite (at_valid kptsCurr _ Ht), bind_Returns, (at_valid kptsPrev _ Hq), bind_Returns.
    rewrite (innerLoop_valid m inner distRatios Hi), bind_Returns, IH, app_assoc.
    reflexivity.
Qed.

Lemma computeTTCCamera_valid (m : DMatch) (ms : list DMatch) (frameRate : double) :
  Forall (validMatch kptsPrev kptsCurr) (m :: ms) ->
  computeTTCCamera kptsPrev kptsCurr (m :: ms) frameRate
  = Returns (match visitedRatios kptsPrev kptsCurr (m :: ms) with
             | [] => D.nan
             | ratios => ttcFromRatio frameRate (medianOfSorted (sort ratios))
             end).
Proof.
  intros Hv. unfold computeTTCCamera, visitedRatios.
  assert (Ho : Forall (validMatch kptsPrev kptsCurr) (removelast (m :: ms))).
  { apply List.Forall_forall. intros x Hx. apply (proj1 (List.Forall_forall _ _) Hv).
    clear Hv. revert m Hx. induction ms as [|m' ms IH]; intros m Hx; [destruct Hx|].
    destruct Hx as [<- | Hx]; [left; reflexivity|]. right. exact (IH m' Hx). }
  assert (Hi : Forall (validMatch kptsPrev kptsCurr) ms) by (inversion Hv; assumption).
  rewrite (outerLoop_valid _ _ [] Ho Hi), bind_Returns. cbn [app tail].
  destruct (flat_map _ _); reflexivity.
Qed.
End CameraFacts.

(** The inner loop starts at the second correspondence whatever the outer
    one is, so a pair of two inner correspondences is visited in both
    orders: four correspondences give seven ratios for six pairs, and the
    median, hence the TTC, is not that of the six (0.5 s against 0.4 s). *)
Lemma computeTTCCamera_visits_inner_pairs_twice :
  exists ratios once,
    outerLoop fourPrev fourCurr (removelast fourMatches) (tail fourMatches) [] = Returns ratios
    /\ unorderedPairRatios fourPrev fourCurr fourMatches = Returns once
    /\ length ratios = 7%nat /\ length once = 6%nat
    /\ computeTTCCamera fourPrev fourCurr fourMatches (D.of_Z 10)
       = Returns (ttcFromRatio (D.of_Z 10) (medianOfSorted (sort ratios)))
    /\ ttcFromRatio (D.of_Z 10) (medianOfSorted (sort ratios))
       <> ttcFromRatio (D.of_Z 10) (medianOfSorted (sort once)).
Proof.
  eexists. eexists.
  split; [vm_compute; reflexivity|].
  split; [vm_compute; reflexivity|].
  split; [reflexivity|]. split; [reflexivity|].
  split; [vm_compute; reflexivity|].
  vm_compute. discriminate.
Qed.

(** *** Claim C5 *)

(** C5, at an input where the code departs from it.  For the rectangles
    (0,0,100,100) and (9,9,100,100) the intersection has area 8281 and the
    two rectangles cover 11719 pixels, so the intersection over union is
    above 0.7; the code divides by the area 11881 of the rectangle that
    [a | b] returns, the smallest one containing both, finds a ratio below
    the threshold and records no pair. *)
Theorem C5_bounding_rectangle_not_union :
  let p := boxAt 3 0 0 100 100 in
  let c := boxAt 4 9 9 100 100 in
  Rect.area (Rect.intersect (roi p) (roi c)) = 8281
  /\ unionArea (roi p) (roi c) = 11719
  /\ (7 # 10 < trueIoU (roi p) (roi c))%Q
  /\ Rect.area (Rect.bounding (roi p) (roi c)) = 11881
  /\ F.gtb (IOURatio (roi p) (roi c)) IOUThreshold = false
  /\ matchBoundingBoxes ∅ [p] [c] = ∅.
Proof. vm_compute. repeat split; reflexivity. Qed.

(** Two previous boxes may be mapped to the same current box. *)
Lemma matchBoundingBoxes_many_to_one :
  map_to_list (matchBoundingBoxes ∅ [boxAt 0 0 0 100 100; boxAt 1 2 2 100 100]
                 [boxAt 5 1 1 100 100])
  = [(1, 5); (0, 5)].
Proof. vm_compute. reflexivity. Qed.

Section ScanCurrent.
Variable it1 : BoundingBox.

(** The running maximum after the inner loop: it is the start value or the
    ratio of a current box, which is then the last pair recorded; it is
    never NaN when the start value is not; and no current box has a ratio
    above it. *)
Lemma scanCurrent_attained (cs : list BoundingBox) (m0 : float)
    (ps0 : list (BoundingBox * BoundingBox)) :
  scanCurrent it1 cs m0 ps0 = (m0, ps0)
  \/ exists c, In c cs
               /\ fst (scanCurrent it1 cs m0 ps0) = IOURatio (roi it1) (roi c)
               /\ last (snd (scanCurrent it1 cs m0 ps0)) = Some (it1, c)
               /\ F.gtb (IOURatio (roi it1) (roi c)) m0 = true.
Proof.
  revert m0 ps0. induction cs as [|c cs IH]; intros m0 ps0; simpl; [left; reflexivity|].
  destruct (F.gtb (IOURatio (roi it1) (roi c)) m0) eqn:Hgt.
  - right. destruct (IH (IOURatio (roi it1) (roi c)) (ps0 ++ [(it1, c)]))
      as [E | (c' & Hin & Hf & Hl & Hg)].
    + exists c. rewrite E. simpl. rewrite last_snoc. auto.
    + exists c'. split; [right; assumption|]. split; [assumption|]. split; [assumption|].
      unfold F.gtb, F.ltb in *. exact (ltb_trans _ _ _ Hgt Hg).
  - destruct (IH m0 ps0) as [E | (c' & Hin & Hf & Hl & Hg)]; [left; assumption|].
    right. exists c'. auto.
Qed.

Lemma scanCurrent_above (cs : list BoundingBox) (m0 : float)
    (ps0 : list (BoundingBox * BoundingBox)) :
  fst (scanCurrent it1 cs m0 ps0) = m0
  \/ F.gtb (fst (scanCurrent it1 cs m0 ps0)) m0 = true.
Proof.
  destruct (scanCurrent_attained cs m0 ps0) as [E | (c & _ & Hf & _ & Hg)].
  - left. rewrite E. reflexivity.
  - right. rewrite Hf. exact Hg.
Qed.

Lemma scanCurrent_maximal (cs : list BoundingBox) (m0 : float)
    (ps0 : list (BoundingBox * BoundingBox)) (c : BoundingBox) :
  In c cs -> F.gtb (IOURatio (roi it1) (roi c)) (fst (scanCurrent it1 cs m0 ps0)) = false.
Proof.
  revert m0 ps0. induction cs as [|c0 cs IH]; intros m0 ps0 Hin; simpl in *; [contradiction|].
  destruct Hin as [-> | Hin].
  - unfold F.gtb, F.ltb in *.
    destruct (SFltb m0 (IOURatio (roi it1) (roi c))) eqn:Hgt.
    + destruct (scanCurrent_above cs (IOURatio (roi it1) (roi c)) (ps0 ++ [(it1, c)]))
        as [-> | H]; [apply ltb_irrefl|].
      unfold F.gtb, F.ltb in H. exact (ltb_asym _ _ H).
    + destruct (scanCurrent_above cs m0 ps0) as [-> | H]; [exact Hgt|].
      unfold F.gtb, F.ltb in H.
      destruct (SFltb (fst (scanCurrent it1 cs m0 ps0)) (IOURatio (roi it1) (roi c))) eqn:E;
        [|reflexivity].
      pose proof (ltb_trans _ _ _ H E). congruence.
  - destruct (F.gtb (IOURatio (roi it1) (roi c0)) m0); apply IH; assumption.
Qed.
End ScanCurrent.

(** What one previous box contributes: an entry for a current box with the
    greatest ratio when that ratio is above the threshold, nothing when no
    ratio is above it. *)
Lemma matchOne_spec (cs : list BoundingBox) (m : gmap Z Z) (p : BoundingBox) :
  ((exists c, In c cs /\ F.gtb (IOURatio (roi p) (roi c)) IOUThreshold = true) ->
   exists c, In c cs
             /\ F.gtb (IOURatio (roi p) (roi c)) IOUThreshold = true
             /\ (forall c', In c' cs ->
                   F.gtb (IOURatio (roi p) (roi c')) (IOURatio (roi p) (roi c)) = false)
             /\ matchOne cs m p = mapInsert (boxID p) (boxID c) m)
  /\ ((forall c, In c cs -> F.gtb (IOURatio (roi p) (roi c)) IOUThreshold = false) ->
      matchOne cs m p = m).
Proof.
  unfold matchOne.
  pose proof (scanCurrent_attained p cs maxIOUInit []) as Hatt.
  pose proof (scanCurrent_maximal p cs maxIOUInit []) as Hmax.
  destruct (scanCurrent p cs maxIOUInit []) as [mx pairs] eqn:Escan. simpl in *.
  split.
  - intros (c0 & Hin0 & Hgt0).
    destruct Hatt as [E | (c & Hin & Hf & Hl & Hg)].
    + injection E as -> ->. specialize (Hmax c0 Hin0).
      unfold F.gtb, F.ltb in *.
      assert (Hn : is_nan maxIOUInit = false) by reflexivity.
      pose proof (ltb_not_below _ _ _ Hgt0 Hmax Hn) as C. vm_compute in C. discriminate.
    + subst mx. exists c. split; [assumption|].
      assert (Hthr : F.gtb (IOURatio (roi p) (roi c)) IOUThreshold = true).
      { unfold F.gtb, F.ltb in *. specialize (Hmax c0 Hin0).
        apply (ltb_not_below _ _ _ Hgt0 Hmax).
        destruct (IOURatio (roi p) (roi c)); try reflexivity.
        vm_compute in Hg. discriminate. }
      split; [exact Hthr|]. split; [exact Hmax|].
      rewrite Hthr, Hl. reflexivity.
  - intros Hnone. destruct Hatt as [E | (c & Hin & Hf & Hl & Hg)].
    + injection E as -> ->. reflexivity.
    + subst mx. rewrite (Hnone c Hin). reflexivity.
Qed.

(** Of two current boxes with the same ratio the first seen is recorded. *)
Lemma matchBoundingBoxes_first_seen :
  map_to_list (matchBoundingBoxes ∅ [boxAt 0 0 0 100 100]
                 [boxAt 7 1 1 100 100; boxAt 8 1 1 100 100])
  = [(0, 7)].
Proof. vm_compute. reflexivity. Qed.

(** *** Claim C6 *)

(** The choice the quadratic branch makes, case by case. *)
Lemma solveQuadratic_choice (vel acc minXCurr : double) :
  let b := coefB vel acc in
  let c := coefC acc minXCurr in
  let d := discriminant b c in
  let TTC1 := rootTTC1 b c in
  let TTC2 := rootTTC2 b c in
  (D.gtb d D.zero = true ->
     (D.gtb TTC1 D.zero = true -> D.gtb TTC2 D.zero = true ->
        solveQuadratic vel acc minXCurr = Some (D.min TTC1 TTC2))
     /\ (D.gtb TTC1 D.zero = true -> D.ltb TTC2 D.zero = true ->
           solveQuadratic vel acc minXCurr = Some TTC1)
     /\ (D.ltb TTC1 D.zero = true -> D.gtb TTC2 D.zero = true ->
           solveQuadratic vel acc minXCurr = Some TTC2)
     /\ (D.gtb TTC1 D.zero = false -> D.gtb TTC2 D.zero = false ->
           solveQuadratic vel acc minXCurr = None))
  /\ (D.eqb d D.zero = true ->
        solveQuadratic vel acc minXCurr = Some (D.div b (D.mul (D.of_Z (-2)) coefA)))
  /\ (D.ltb d D.zero = true -> solveQuadratic vel acc minXCurr = None).
Proof.
  intros b c d TTC1 TTC2. unfold solveQuadratic. fold b c. fold d. fold TTC1 TTC2.
  unfold D.gtb, D.ltb, D.eqb. split; [|split].
  - intros ->. repeat split.
    + intros -> ->. reflexivity.
    + intros H1 H2. rewrite H1, H2, (ltb_asym _ _ H2). reflexivity.
    + intros H1 H2. rewrite H1, H2, (ltb_asym _ _ H1). reflexivity.
    + intros -> ->. simpl. rewrite andb_false_r. reflexivity.
  - intros H. rewrite (eqb_not_ltb _ _ H), H. reflexivity.
  - intros H. rewrite (ltb_asym _ _ H).
    unfold SFeqb. unfold SFltb in H.
    destruct (SFcompare d D.zero) as [[| |]|]; try discriminate. reflexivity.
Qed.

(** C6, at the input where the code departs from it.  Velocity 1,
    acceleration -1 and a current frame whose closest surviving point is at
    distance 0 give [b = -2], [c = 0], [d = 4 > 0] and the roots
    [TTC1 = 0] and [TTC2 = 2]: exactly one root is positive, yet the
    branch assigns no TTC (the caller's value 77 is left in place) and
    prints the "not able" message, because it asks for the other root to be
    negative. *)
Theorem C6_zero_root_not_selected :
  let vel := D.of_Z 1 in
  let acc := D.of_Z (-1) in
  let curr := threePoints 0 in
  let b := coefB vel acc in
  let c := coefC acc (closestX curr) in
  let r := computeTTCLidar (threePoints 10) curr (D.of_Z 10) (D.of_Z 77) vel acc 1 in
  closestX curr = D.zero
  /\ b = D.of_Z (-2) /\ c = D.zero
  /\ D.gtb (discriminant b c) D.zero = true
  /\ rootTTC1 b c = D.zero
  /\ rootTTC2 b c = D.of_Z 2
  /\ D.gtb (rootTTC2 b c) D.zero = true
  /\ solveQuadratic vel acc (closestX curr) = None
  /\ TTC r = D.of_Z 77
  /\ cout r = [MsgNotAble].
Proof. vm_compute. repeat split; reflexivity. Qed.

(** *** Claim C7 *)

(** C7 fails as stated: called in the state "velocity known, acceleration
    not yet known" (velocity 5, acceleration at the sentinel) under the
    constant-acceleration model, the function first estimates the
    acceleration and then computes the TTC of that same frame by the
    quadratic solve, not by the constant-velocity formula. *)
Lemma C7_velocity_known_counterexample :
  let r := computeTTCLidar (threePoints 10) (threePoints 9) (D.of_Z 10)
             D.nan (D.of_Z 5) unknown 1 in
  phase (D.of_Z 5) unknown = 1%nat
  /\ TTC r <> ttcConstantVelocity (closestX (threePoints 10)) (closestX (threePoints 9))
                (dT_of (D.of_Z 10))
  /\ TTC r = quadraticTTC D.nan (D.of_Z 5) (vehicleAcc r) (closestX (threePoints 9)).
Proof.
  split; [vm_compute; reflexivity|].
  split; [vm_compute; discriminate|].
  vm_compute; reflexivity.
Qed.

(** C7, amended.  Under the constant-acceleration model:
    - from the uninitialised state the TTC is the constant-velocity formula
      and the velocity becomes [(minXPrev - minXCurr)/dT];
    - from "velocity known" the acceleration becomes
      [(thisFrameVelocity - previousVelocity)/dT] before the TTC is computed,
      so that frame already uses the quadratic solve and advances the
      velocity by [a*dT] (the constant-velocity formula is used only if the
      estimate equals the sentinel);
    - once the acceleration is known it is never estimated again;
    - the stage never decreases, provided the acceleration estimated from
      "velocity known" is not the sentinel value. *)
Theorem C7_kinematic_progression
    (prev curr : list LidarPoint.t) (frameRate TTC0 vel acc : double) (model : Z) :
  model <> 0 ->
  let r := computeTTCLidar prev curr frameRate TTC0 vel acc model in
  let dT := dT_of frameRate in
  let cv := ttcConstantVelocity (closestX prev) (closestX curr) dT in
  let a := accelEstimate (closestX prev) (closestX curr) vel dT in
  (phase vel acc = 0%nat ->
     TTC r = cv
     /\ vehicleVel r = closingVelocity (closestX prev) (closestX curr) dT
     /\ vehicleAcc r = acc)
  /\ (phase vel acc = 1%nat ->
        vehicleAcc r = a
        /\ (D.eqb a unknown = false ->
              TTC r = quadraticTTC TTC0 vel a (closestX curr)
              /\ vehicleVel r = D.add vel (D.mul a (F.to_double dT)))
        /\ (D.eqb a unknown = true -> TTC r = cv))
  /\ (phase vel acc = 2%nat ->
        vehicleAcc r = acc
        /\ TTC r = quadraticTTC TTC0 vel acc (closestX curr)
        /\ vehicleVel r = D.add vel (D.mul acc (F.to_double dT)))
  /\ ((phase vel acc = 1%nat -> D.eqb a unknown = false) ->
        (phase vel acc <= phase (vehicleVel r) (vehicleAcc r))%nat).
Proof.
  intros Hm r dT cv a. apply Z.eqb_neq in Hm.
  destruct (computeTTCLidar_fields prev curr frameRate TTC0 vel acc model)
    as (Hacc & Httc & Hvel).
  fold r dT cv in Hacc, Httc, Hvel. rewrite Hm in Httc, Hvel.
  unfold phase at 1 2 3 4 5. unfold D.neqb in *.
  destruct (D.eqb acc unknown) eqn:Ea, (D.eqb vel unknown) eqn:Ev; simpl in *;
    fold a in Hacc, Httc, Hvel;
    repeat split; try discriminate; intros;
    rewrite ?Hacc, ?Httc, ?Hvel, ?Ea, ?Ev in *; simpl; try reflexivity; try lia.
  - match goal with H : D.eqb a unknown = false |- _ => rewrite H; reflexivity end.
  - match goal with H : D.eqb a unknown = true |- _ => rewrite H; reflexivity end.
  - unfold phase.
    match goal with H : _ -> D.eqb a unknown = false |- _ => rewrite (H eq_refl) end. lia.
  - unfold phase. rewrite Ea. lia.
  - unfold phase. rewrite Ea. lia.
Qed.

Lemma C7_kinematic_progression_witness :
  let r := computeTTCLidar (threePoints 10) (threePoints 9) (D.of_Z 10)
             D.nan (D.of_Z 5) unknown 1 in
  let a := accelEstimate (closestX (threePoints 10)) (closestX (threePoints 9))
             (D.of_Z 5) (dT_of (D.of_Z 10)) in
  (1 <> 0) /\ phase (D.of_Z 5) unknown = 1%nat /\ D.eqb a unknown = false
  /\ vehicleAcc r = a
  /\ TTC r = quadraticTTC D.nan (D.of_Z 5) a (closestX (threePoints 9))
  /\ (phase (D.of_Z 5) unknown <= phase (vehicleVel r) (vehicleAcc r))%nat.
Proof.
  intros r a.
  assert (Hm : 1 <> 0) by lia.
  assert (Hp : phase (D.of_Z 5) unknown = 1%nat) by (vm_compute; reflexivity).
  assert (Ha : D.eqb a unknown = false) by (vm_compute; reflexivity).
  pose proof (C7_kinematic_progression (threePoints 10) (threePoints 9) (D.of_Z 10)
                D.nan (D.of_Z 5) unknown 1 Hm) as (_ & H1 & _ & Hmono).
  destruct (H1 Hp) as (Hacc & Hq & _). destruct (Hq Ha) as (Httc & _).
  split; [exact Hm|]. split; [exact Hp|]. split; [exact Ha|].
  split; [exact Hacc|]. split; [exact Httc|].
  exact (Hmono (fun _ => Ha)).
Defined.

(** *** Claim C8 *)

Section ClusterLidarFacts.
Variable project : LidarPoint.t -> double * double * double.
Variable s : float.

Lemma enclosingBoxes_In (boxes : list BoundingBox) (i : nat) (px : Z * Z) (j : nat) :
  In j (enclosingBoxes s i boxes px)
  <-> (i <= j)%nat
      /\ exists b, boxes !! (j - i)%nat = Some b
                   /\ Rect.contains (smallerBox s (roi b)) px = true.
Proof.
  revert i. induction boxes as [|b0 rest IH]; intros i; simpl.
  - split; [contradiction|]. intros (_ & b & H & _). discriminate.
  - destruct (Rect.contains (smallerBox s (roi b0)) px) eqn:Hc; simpl; rewrite ?IH.
    + split.
      * intros [<- | (Hle & b & Hb & Hcb)].
        -- split; [lia|]. exists b0. rewrite Nat.sub_diag. auto.
        -- split; [lia|]. exists b. split; [|assumption].
           replace (j - i)%nat with (S (j - S i)) by lia. assumption.
      * intros (Hle & b & Hb & Hcb).
        destruct (Nat.eq_dec i j) as [->|Hne]; [left; reflexivity|right].
        split; [lia|]. exists b. split; [|assumption].
        replace (j - i)%nat with (S (j - S i)) in Hb by lia. assumption.
    + split.
      * intros (Hle & b & Hb & Hcb). split; [lia|]. exists b. split; [|assumption].
        replace (j - i)%nat with (S (j - S i)) by lia. assumption.
      * intros (Hle & b & Hb & Hcb).
        destruct (Nat.eq_dec i j) as [->|Hne].
        -- rewrite Nat.sub_diag in Hb. simpl in Hb. congruence.
        -- split; [lia|]. exists b. split; [|assumption].
           replace (j - i)%nat with (S (j - S i)) in Hb by lia. assumption.
Qed.

Lemma enclosingBoxes_NoDup (boxes : list BoundingBox) (i : nat) (px : Z * Z) :
  List.NoDup (enclosingBoxes s i boxes px).
Proof.
  revert i. induction boxes as [|b0 rest IH]; intros i; simpl; [constructor|].
  destruct (Rect.contains (smallerBox s (roi b0)) px); [|apply IH].
  constructor; [|apply IH]. rewrite enclosingBoxes_In. lia.
Qed.

(** The positions found are one position exactly when the pixel lies in
    that box's shrunk rectangle and in no other. *)
Lemma enclosingBoxes_singleton (boxes : list BoundingBox) (px : Z * Z) (k : nat) :
  enclosingBoxes s 0 boxes px = [k] <-> inExactlyOne s boxes k px.
Proof.
  unfold inExactlyOne. split.
  - intros E. split.
    + assert (H : In k (enclosingBoxes s 0 boxes px)) by (rewrite E; left; reflexivity).
      apply enclosingBoxes_In in H as (_ & b & Hb & Hc).
      rewrite Nat.sub_0_r in Hb. eauto.
    + intros j b Hb Hc.
      assert (H : In j (enclosingBoxes s 0 boxes px)).
      { apply enclosingBoxes_In. split; [lia|]. exists b. rewrite Nat.sub_0_r. auto. }
      rewrite E in H. destruct H as [H | []]. congruence.
  - intros ((b & Hb & Hc) & Huniq).
    pose proof (enclosingBoxes_NoDup boxes 0 px) as Hnd.
    assert (Hin : forall j, In j (enclosingBoxes s 0 boxes px) <-> j = k).
    { intros j. rewrite enclosingBoxes_In, Nat.sub_0_r. split.
      - intros (_ & b' & Hb' & Hc'). eauto.
      - intros ->. split; [lia|]. eauto. }
    destruct (enclosingBoxes s 0 boxes px) as [|a [|a' l]].
    + exfalso. apply (Hin k); reflexivity.
    + f_equal. apply Hin. left; reflexivity.
    + exfalso. assert (a = k) by (apply Hin; left; reflexivity).
      assert (a' = k) by (apply Hin; right; left; reflexivity).
      subst. inversion Hnd as [|? ? Hn _]. apply Hn. left; reflexivity.
Qed.

Lemma ownsPoint_spec (boxes : list BoundingBox) (k : nat) (p : LidarPoint.t) :
  ownsPoint project s boxes k p = true <-> inExactlyOne s boxes k (pixelOf project p).
Proof.
  rewrite <- enclosingBoxes_singleton. unfold ownsPoint.
  destruct (enclosingBoxes s 0 boxes (pixelOf project p)) as [|a [|a' l]].
  - split; intros; discriminate.
  - rewrite Nat.eqb_eq. split; [intros ->; reflexivity|congruence].
  - split; intros; discriminate.
Qed.

(** Appending a point to a box changes no rectangle. *)
Lemma enclosingBoxes_alter (boxes : list BoundingBox) (i k : nat) (p : LidarPoint.t)
    (px : Z * Z) :
  enclosingBoxes s i (alter (pushLidarPoint p) k boxes) px = enclosingBoxes s i boxes px.
Proof.
  revert i k. induction boxes as [|b0 rest IH]; intros i k; [reflexivity|].
  destruct k as [|k]; [reflexivity|].
  change (alter (pushLidarPoint p) (S k) (b0 :: rest))
    with (b0 :: alter (pushLidarPoint p) k rest).
  simpl. rewrite IH. reflexivity.
Qed.

Lemma enclosingBoxes_assignPoint (boxes : list BoundingBox) (i : nat) (p : LidarPoint.t)
    (px : Z * Z) :
  enclosingBoxes s i (assignPoint project s boxes p) px = enclosingBoxes s i boxes px.
Proof.
  unfold assignPoint.
  destruct (enclosingBoxes s 0 boxes (pixelOf project p)) as [|a [|a' l]];
    try reflexivity. apply enclosingBoxes_alter.
Qed.

Lemma assignPoint_lookup (boxes : list BoundingBox) (p : LidarPoint.t) (k : nat)
    (b : BoundingBox) :
  boxes !! k = Some b ->
  assignPoint project s boxes p !! k
  = Some (if ownsPoint project s boxes k p then pushLidarPoint p b else b).
Proof.
  intros Hb. unfold assignPoint, ownsPoint.
  destruct (enclosingBoxes s 0 boxes (pixelOf project p)) as [|a [|a' l]];
    try assumption.
  destruct (Nat.eqb_spec a k) as [->|Hne].
  - rewrite list_lookup_alter_eq, Hb. reflexivity.
  - rewrite list_lookup_alter_ne by assumption. assumption.
Qed.

Lemma clusterLidarWithROI_lookup (points : list LidarPoint.t) (boxes : list BoundingBox)
    (k : nat) (b : BoundingBox) :
  boxes !! k = Some b ->
  exists b',
    clusterLidarWithROI project boxes points s !! k = Some b'
    /\ boxID b' = boxID b /\ roi b' = roi b /\ kptMatches b' = kptMatches b
    /\ lidarPoints b'
       = lidarPoints b ++ List.filter (ownsPoint project s boxes k) points.
Proof.
  unfold clusterLidarWithROI. revert boxes b.
  induction points as [|p rest IH]; intros boxes b Hb; simpl.
  - exists b. rewrite app_nil_r. auto.
  - destruct (IH _ _ (assignPoint_lookup boxes p k b Hb))
      as (b' & Hlook & Hid & Hroi & Hk & Hl).
    exists b'. split; [exact Hlook|].
    assert (Hext : List.filter (ownsPoint project s (assignPoint project s boxes p) k) rest
                   = List.filter (ownsPoint project s boxes k) rest).
    { apply List.filter_ext. intros q. unfold ownsPoint.
      rewrite enclosingBoxes_assignPoint. reflexivity. }
    rewrite Hext in Hl. rewrite Hid, Hroi, Hk, Hl.
    destruct (ownsPoint project s boxes k p); simpl; auto.
    rewrite <- app_assoc. auto.
Qed.
End ClusterLidarFacts.

(** C8 fails as stated: with the shrink factor 0.10 of the frame loop the box
    (0,0,100,100) has the shrunk rectangle (5,5,90,90); the point whose pixel
    is (5,50) lies on its left edge, not strictly inside, and is appended to
    the box all the same. *)
Lemma C8_edge_pixel_counterexample :
  let boxes := [boxAt 0 0 0 100 100] in
  let p := lidarPixel 5 50 in
  smallerBox lidarShrinkFactor (Rect.mk 0 0 100 100) = Rect.mk 5 5 90 90
  /\ pixelOf projectXYZ p = (5, 50)
  /\ ~ strictlyInside (smallerBox lidarShrinkFactor (Rect.mk 0 0 100 100))
         (pixelOf projectXYZ p)
  /\ lidarPoints <$> clusterLidarWithROI projectXYZ boxes [p] lidarShrinkFactor = [[p]].
Proof.
  split; [vm_compute; reflexivity|].
  split; [vm_compute; reflexivity|].
  split; [|vm_compute; reflexivity].
  intros [[H _] _]. vm_compute in H. discriminate.
Qed.

(** C8, amended.  Every box keeps its place, id and rectangle, and receives,
    in order, exactly the points whose projected pixel lies in its shrunk
    rectangle and in the shrunk rectangle of no other box, where "lies in"
    is [cv::Rect::contains] (left and top edge included, right and bottom
    edge excluded) and the shrunk rectangle is [smallerBox] (each field
    truncated to [int]); a point in no or in several shrunk rectangles goes
    to no box, and no point goes to two boxes. *)
Theorem C8_point_goes_to_its_only_box
    (project : LidarPoint.t -> double * double * double) (shrinkFactor : float)
    (boxes : list BoundingBox) (points : list LidarPoint.t) :
  length (clusterLidarWithROI project boxes points shrinkFactor) = length boxes
  /\ (forall k b, boxes !! k = Some b ->
        exists b',
          clusterLidarWithROI project boxes points shrinkFactor !! k = Some b'
          /\ boxID b' = boxID b /\ roi b' = roi b
          /\ lidarPoints b'
             = lidarPoints b ++ List.filter (ownsPoint project shrinkFactor boxes k) points)
  /\ (forall k p, ownsPoint project shrinkFactor boxes k p = true
                  <-> inExactlyOne shrinkFactor boxes k (pixelOf project p))
  /\ (forall k1 k2 p, ownsPoint project shrinkFactor boxes k1 p = true ->
                      ownsPoint project shrinkFactor boxes k2 p = true -> k1 = k2).
Proof.
  split; [|split; [|split]].
  - unfold clusterLidarWithROI. revert boxes.
    induction points as [|p rest IH]; intros boxes; simpl; [reflexivity|].
    rewrite IH. unfold assignPoint.
    destruct (enclosingBoxes shrinkFactor 0 boxes (pixelOf project p)) as [|a [|a' l]];
      try reflexivity. apply length_alter.
  - intros k b Hb.
    destruct (clusterLidarWithROI_lookup project shrinkFactor points boxes k b Hb)
      as (b' & H1 & H2 & H3 & _ & H5).
    exists b'. auto.
  - intros k p. apply ownsPoint_spec.
  - intros k1 k2 p H1 H2. unfold ownsPoint in *.
    destruct (enclosingBoxes shrinkFactor 0 boxes (pixelOf project p)) as [|a [|a' l]];
      try discriminate.
    apply Nat.eqb_eq in H1, H2. congruence.
Qed.

Lemma C8_point_goes_to_its_only_box_witness :
  let boxes := [boxAt 0 0 0 100 100; boxAt 1 50 50 100 100] in
  let points := [lidarPixel 5 50; lidarPixel 60 60; lidarPixel 120 120] in
  boxes !! 1%nat = Some (boxAt 1 50 50 100 100)
  /\ exists b',
       clusterLidarWithROI projectXYZ boxes points lidarShrinkFactor !! 1%nat = Some b'
       /\ lidarPoints b' = [lidarPixel 120 120].
Proof.
  intros boxes points. split; [reflexivity|].
  destruct (proj1 (proj2 (C8_point_goes_to_its_only_box projectXYZ lidarShrinkFactor
                            boxes points)) 1%nat (boxAt 1 50 50 100 100) eq_refl)
    as (b' & Hl & _ & _ & Hp).
  exists b'. split; [exact Hl|]. rewrite Hp. vm_compute. reflexivity.
Defined.

(** *** Claim C9 *)

Section ClusterKptFacts.
Variable containsPt : Rect.t -> Point2f.t -> bool.
Variables kptsPrev kptsCurr : list KeyPoint.

Lemma distSums_valid (ms : list DMatch) (distSum distSqSum : double) :
  Forall (validMatch kptsPrev kptsCurr) ms ->
  distSums kptsPrev kptsCurr ms distSum distSqSum
  = Returns (fold_left D.add (map (matchDist kptsPrev kptsCurr) ms) distSum,
             fold_left D.add (map (fun m => D.pow2 (matchDist kptsPrev kptsCurr m)) ms)
               distSqSum).
Proof.
  intros Hv. revert distSum distSqSum.
  induction Hv as [|m ms [Hq Ht] _ IH]; intros distSum distSqSum; [reflexivity|].
  cbn [distSums]. unfold displacement.
  rewrite (at_valid kptsCurr _ Ht), bind_Returns, (at_valid kptsPrev _ Hq), !bind_Returns.
  rewrite IH. reflexivity.
Qed.

Lemma keepMatches_valid (box : Rect.t) (distMean distStd : double) (ms kept : list DMatch) :
  Forall (validMatch kptsPrev kptsCurr) ms ->
  keepMatches containsPt box distMean distStd kptsPrev kptsCurr ms kept
  = Returns (kept ++ List.filter
               (fun m => containsPt box (pt (kpAt kptsCurr (trainIdx m)))
                         && containsPt box (pt (kpAt kptsPrev (queryIdx m)))
                         && inBand distThreshold distMean distStd
                              (matchDist kptsPrev kptsCurr m)) ms).
Proof.
  intros Hv. revert kept.
  induction Hv as [|m ms [Hq Ht] _ IH]; intros kept; cbn [keepMatches List.filter].
  - rewrite app_nil_r. reflexivity.
  - rewrite (at_valid kptsCurr _ Ht), bind_Returns, (at_valid kptsPrev _ Hq), bind_Returns.
    rewrite IH. fold (matchDist kptsPrev kptsCurr m). unfold inBand, D.gtb.
    destruct (containsPt box (pt (kpAt kptsCurr (trainIdx m)))
              && containsPt box (pt (kpAt kptsPrev (queryIdx m)))); simpl; [|reflexivity].
    match goal with |- context [if ?c then kept ++ [m] else kept] => destruct c end;
      [rewrite <- app_assoc|]; reflexivity.
Qed.
End ClusterKptFacts.

(** The rectangle and the band of the source are the 10% inset and the
    1.7·stddev band of the specification, with strict bounds. *)
Lemma smallerBox_tenPercentInset (roi : Rect.t) :
  smallerBox kptShrinkFactor roi = tenPercentInset roi.
Proof.
  assert (E : kptShrinkFactor = oneTenth) by (vm_compute; reflexivity).
  unfold smallerBox, tenPercentInset. rewrite E. reflexivity.
Qed.

Lemma keepsMatch_insideInsetAndBand (inside : Rect.t -> Point2f.t -> bool) (roi : Rect.t)
    (kptsPrev kptsCurr : list KeyPoint) (frameMatches : list DMatch) (m : DMatch) :
  keepsMatch inside roi kptsPrev kptsCurr frameMatches m
  = insideInsetAndBand inside roi kptsPrev kptsCurr frameMatches m.
Proof.
  assert (E : F.to_double distThreshold = onePointSeven) by reflexivity.
  unfold keepsMatch, insideInsetAndBand, inBand, D.gtb.
  rewrite smallerBox_tenPercentInset, E.
  rewrite (andb_comm (inside (tenPercentInset roi) (pt (kpAt kptsCurr (trainIdx m))))).
  rewrite !andb_assoc. reflexivity.
Qed.

Lemma clusterKptMatchesWithROI_keeps (inside : Rect.t -> Point2f.t -> bool)
    (boundingBox : BoundingBox) (kptsPrev kptsCurr : list KeyPoint)
    (frameMatches : list DMatch) :
  Forall (validMatch kptsPrev kptsCurr) frameMatches ->
  clusterKptMatchesWithROI inside boundingBox kptsPrev kptsCurr frameMatches
  = Returns {| boxID := boxID boundingBox; roi := roi boundingBox;
               lidarPoints := lidarPoints boundingBox;
               kptMatches :=
                 kptMatches boundingBox
                 ++ List.filter (insideInsetAndBand inside (roi boundingBox)
                                   kptsPrev kptsCurr frameMatches) frameMatches |}.
Proof.
  intros Hv. unfold clusterKptMatchesWithROI.
  rewrite (distSums_valid kptsPrev kptsCurr _ _ _ Hv), bind_Returns.
  cbn [fst snd].
  rewrite (keepMatches_valid inside kptsPrev kptsCurr _ _ _ _ _ Hv), bind_Returns.
  do 3 f_equal.
  apply List.filter_ext. intros m.
  exact (keepsMatch_insideInsetAndBand inside (roi boundingBox) kptsPrev kptsCurr
           frameMatches m).
Qed.

(** C9 fails as stated where the spread is zero.  A frame with a single
    correspondence, of displacement 10, has mean 10 and standard deviation
    0; both positions lie inside the inset rectangle and the displacement
    lies within mean ± 1.7·stddev, bounds included, yet the correspondence
    is not kept: the box comes back without any match. *)
Lemma C9_zero_spread_counterexample :
  let kptsPrev := [keyPointAt 100 100] in
  let kptsCurr := [keyPointAt 110 100] in
  let m := mkDMatch 0 0 in
  let box := boxAt 0 0 0 1000 1000 in
  Forall (validMatch kptsPrev kptsCurr) [m]
  /\ tenPercentInset (roi box) = Rect.mk 50 50 900 900
  /\ containsExact (tenPercentInset (roi box)) (pt (kpAt kptsPrev (queryIdx m))) = true
  /\ containsExact (tenPercentInset (roi box)) (pt (kpAt kptsCurr (trainIdx m))) = true
  /\ containsRounded (tenPercentInset (roi box)) (pt (kpAt kptsPrev (queryIdx m))) = true
  /\ containsRounded (tenPercentInset (roi box)) (pt (kpAt kptsCurr (trainIdx m))) = true
  /\ frameDistMean kptsPrev kptsCurr [m] = D.of_Z 10
  /\ frameDistStd kptsPrev kptsCurr [m] = D.zero
  /\ matchDist kptsPrev kptsCurr m = D.of_Z 10
  /\ within onePointSeven (frameDistMean kptsPrev kptsCurr [m])
       (frameDistStd kptsPrev kptsCurr [m]) (matchDist kptsPrev kptsCurr m)
  /\ clusterKptMatchesWithROI containsExact box kptsPrev kptsCurr [m] = Returns box
  /\ clusterKptMatchesWithROI containsRounded box kptsPrev kptsCurr [m] = Returns box
  /\ kptMatches box = [].
Proof.
  cbv zeta.
  split; [repeat constructor; simpl; lia|].
  do 8 (split; [vm_compute; reflexivity|]).
  split; [split; vm_compute; reflexivity|].
  do 2 (split; [vm_compute; reflexivity|]).
  reflexivity.
Qed.

(** C9, amended.  When every correspondence of the frame has valid indices,
    [clusterKptMatchesWithROI] appends to the box's match set exactly the
    correspondences, in order, whose previous and current positions both lie
    inside the box's rectangle with the fixed 10% inset (every field
    truncated to [int]; inside by [cv::Rect::contains], whether the OpenCV
    version rounds the position to a pixel first or compares it as it is)
    and whose displacement lies strictly between mean - 1.7·stddev and
    mean + 1.7·stddev (1.7 in single precision), the mean and the standard
    deviation being those of the displacements of all the correspondences
    of the frame. *)
Theorem C9_keeps_inside_and_in_band
    (boundingBox : BoundingBox) (kptsPrev kptsCurr : list KeyPoint)
    (frameMatches : list DMatch) :
  Forall (validMatch kptsPrev kptsCurr) frameMatches ->
  let mean := frameDistMean kptsPrev kptsCurr frameMatches in
  let std := frameDistStd kptsPrev kptsCurr frameMatches in
  let box := tenPercentInset (roi boundingBox) in
  let kept (inside : Rect.t -> Point2f.t -> bool) (m : DMatch) : bool :=
    inside box (pt (kpAt kptsPrev (queryIdx m)))
    && inside box (pt (kpAt kptsCurr (trainIdx m)))
    && D.ltb (D.sub mean (D.mul onePointSeven std)) (matchDist kptsPrev kptsCurr m)
    && D.ltb (matchDist kptsPrev kptsCurr m) (D.add mean (D.mul onePointSeven std)) in
  clusterKptMatchesWithROI containsRounded boundingBox kptsPrev kptsCurr frameMatches
  = Returns {| boxID := boxID boundingBox; roi := roi boundingBox;
               lidarPoints := lidarPoints boundingBox;
               kptMatches :=
                 kptMatches boundingBox ++ List.filter (kept containsRounded) frameMatches |}
  /\ clusterKptMatchesWithROI containsExact boundingBox kptsPrev kptsCurr frameMatches
     = Returns {| boxID := boxID boundingBox; roi := roi boundingBox;
                  lidarPoints := lidarPoints boundingBox;
                  kptMatches :=
                    kptMatches boundingBox ++ List.filter (kept containsExact) frameMatches |}.
Proof.
  intros Hv mean std box kept.
  split; apply (clusterKptMatchesWithROI_keeps _ _ _ _ _ Hv).
Qed.

Lemma C9_keeps_inside_and_in_band_witness :
  let box := boxAt 0 0 0 1000 1000 in
  let mean := frameDistMean eightPrev eightCurr eightMatches in
  let std := frameDistStd eightPrev eightCurr eightMatches in
  let kept := [mkDMatch 0 0; mkDMatch 2 2; mkDMatch 4 4; mkDMatch 5 5; mkDMatch 6 6;
               mkDMatch 7 7] in
  Forall (validMatch eightPrev eightCurr) eightMatches
  /\ tenPercentInset (roi box) = Rect.mk 50 50 900 900
  /\ clusterKptMatchesWithROI containsRounded box eightPrev eightCurr eightMatches
     = Returns (mkBoundingBox 0 (roi box) [] kept)
  /\ clusterKptMatchesWithROI containsExact box eightPrev eightCurr eightMatches
     = Returns (mkBoundingBox 0 (roi box) [] kept)
  /\ (containsExact (roi box) (pt (kpAt eightPrev 1)) = true
      /\ containsExact (roi box) (pt (kpAt eightCurr 1)) = true
      /\ strictlyWithin onePointSeven mean std (matchDist eightPrev eightCurr (mkDMatch 1 1)))
  /\ (containsExact (tenPercentInset (roi box)) (pt (kpAt eightPrev 3)) = true
      /\ containsExact (tenPercentInset (roi box)) (pt (kpAt eightCurr 3)) = true
      /\ strictlyWithin (D.lit 175 100) mean std (matchDist eightPrev eightCurr (mkDMatch 3 3)))
  /\ ~ within (D.lit 165 100) mean std (matchDist eightPrev eightCurr (mkDMatch 0 0)).
Proof.
  intros box mean std kept.
  assert (Hv : Forall (validMatch eightPrev eightCurr) eightMatches).
  { repeat constructor; simpl; lia. }
  destruct (C9_keeps_inside_and_in_band box eightPrev eightCurr eightMatches Hv) as [Er Ee].
  split; [exact Hv|].
  split; [vm_compute; reflexivity|].
  split; [rewrite Er; vm_compute; reflexivity|].
  split; [rewrite Ee; vm_compute; reflexivity|].
  split; [split; [|split; [|split]]; vm_compute; reflexivity|].
  split; [split; [|split; [|split]]; vm_compute; reflexivity|].
  intros [_ H]. vm_compute in H. discriminate.
Defined.

(** *** Claim C10 *)

Lemma neqb_unknown : D.neqb unknown unknown = false.
Proof. vm_compute. reflexivity. Qed.

(** C10.  With the constant-velocity model and the velocity at its sentinel,
    [computeTTCLidar] leaves [vehicleVel] and [vehicleAcc] as they were; so a
    whole run of such calls from the initial state ends in the initial
    state, having produced one TTC per call. *)
Theorem C10_constant_velocity_keeps_state :
  (forall prev curr frameRate TTC0 acc,
     let r := computeTTCLidar prev curr frameRate TTC0 unknown acc 0 in
     vehicleVel r = unknown /\ vehicleAcc r = acc /\ cout r = [])
  /\ (forall calls,
        exists ttcs, runLidar 0 calls unknown unknown = (ttcs, unknown, unknown)
                     /\ length ttcs = length calls).
Proof.
  assert (Step : forall prev curr frameRate TTC0 acc,
     let r := computeTTCLidar prev curr frameRate TTC0 unknown acc 0 in
     vehicleVel r = unknown /\ vehicleAcc r = acc /\ cout r = []).
  { intros. subst r. unfold computeTTCLidar. rewrite neqb_unknown. simpl. auto. }
  split; [exact Step|].
  induction calls as [|c rest IH]; cbn [runLidar].
  - exists []. split; reflexivity.
  - destruct (Step (callPrev c) (callCurr c) (callFrameRate c) (callTTC0 c) unknown)
      as (Hv & Ha & _).
    rewrite Hv, Ha. destruct IH as (ttcs & -> & Hlen).
    eexists. split; [reflexivity|]. simpl. rewrite Hlen. reflexivity.
Qed.


(** * Further properties of the code *)

(** ** [computeTTCLidar] *)

(** X1.  Whatever the points are (NaN and infinite coordinates included),
    the closest distance the loop returns is a finite number and is never
    above the start value 1e9. *)
Theorem closestX_finite_and_bounded (pts : list LidarPoint.t) :
  is_finite (closestX pts) = true /\ D.ltb minXInit (closestX pts) = false.
Proof.
  split; [apply closestX_finite|].
  unfold closestX. destruct (fold_min_below pts pts minXInit) as [-> | H].
  - apply ltb_irrefl.
  - exact (ltb_asym _ _ H).
Qed.

(** A band of mean ± thr·std whose [std] is a zero or NaN contains nothing. *)
Lemma inBand_degenerate (thr : float) (mean std v : double) :
  zeroOrNaN std = true -> inBand thr mean std v = false.
Proof.
  intros Hz. unfold inBand, D.gtb, D.ltb.
  assert (Hm : zeroOrNaN (D.mul (F.to_double thr) std) = true).
  { destruct std as [s| | |]; try discriminate;
      destruct (F.to_double thr) as [st|st| |st mt et]; reflexivity. }
  destruct (D.mul (F.to_double thr) std) as [sz| | |]; try discriminate.
  - destruct mean as [sm|sm| |sm mm em].
    + destruct sm, sz; simpl;
        destruct v as [sv|sv| |sv mv ev]; try destruct sv; reflexivity.
    + simpl. destruct (SFltb (S754_infinity sm) v) eqn:E; [|reflexivity].
      simpl. destruct (SFltb v (S754_infinity sm)) eqn:E'; [|reflexivity].
      rewrite (ltb_asym _ _ E) in E'. discriminate.
    + reflexivity.
    + simpl. destruct (SFltb (S754_finite sm mm em) v) eqn:E; [|reflexivity].
      simpl. destruct (SFltb v (S754_finite sm mm em)) eqn:E'; [|reflexivity].
      rewrite (ltb_asym _ _ E) in E'. discriminate.
  - destruct mean as [sm|sm| |sm mm em]; reflexivity.
Qed.

(** X2.  When the standard deviation of the distances or of the
    reflectivities of a frame comes out as zero or NaN, no point of the frame
    passes the filter and the closest distance stays at 1e9. *)
Theorem degenerate_spread_leaves_start_value (pts : list LidarPoint.t) :
  zeroOrNaN (XStd pts) = true \/ zeroOrNaN (IStd pts) = true ->
  (forall p, survives pts p = false) /\ closestX pts = minXInit.
Proof.
  intros H.
  assert (Hs : forall p, survives pts p = false).
  { intros p. unfold survives. destruct H as [H | H].
    - rewrite (inBand_degenerate _ _ _ _ H). reflexivity.
    - rewrite (inBand_degenerate _ (IMean pts) _ _ H). apply andb_false_r. }
  split; [exact Hs|]. apply closestX_default.
  intros (p & _ & Hp & _). rewrite Hs in Hp. discriminate.
Qed.

Lemma degenerate_spread_leaves_start_value_witness :
  (zeroOrNaN (XStd [lidarAt 7 1]) = true \/ zeroOrNaN (IStd [lidarAt 7 1]) = true)
  /\ closestX [lidarAt 7 1] = minXInit.
Proof.
  assert (H : zeroOrNaN (XStd [lidarAt 7 1]) = true
              \/ zeroOrNaN (IStd [lidarAt 7 1]) = true) by (left; vm_compute; reflexivity).
  split; [exact H|].
  exact (proj2 (degenerate_spread_leaves_start_value [lidarAt 7 1] H)).
Defined.

(** The statistics and the closest distance read only [x] and [r]. *)
Lemma lidarSums_sameXR (l l' : list LidarPoint.t) (s : Sums) :
  Forall2 sameXR l l' -> fold_left accumulate l s = fold_left accumulate l' s.
Proof.
  intros H. revert s. induction H as [|p q l l' [Hx Hr] _ IH]; intros s; simpl; [reflexivity|].
  unfold accumulate at 2 4. rewrite Hx, Hr. apply IH.
Qed.

Lemma survives_sameXR (pts pts' : list LidarPoint.t) (p q : LidarPoint.t) :
  Forall2 sameXR pts pts' -> sameXR p q -> survives pts p = survives pts' q.
Proof.
  intros H [Hx Hr].
  assert (Es : lidarSums pts = lidarSums pts') by apply (lidarSums_sameXR _ _ _ H).
  assert (En : size_d pts = size_d pts').
  { unfold size_d. rewrite (Forall2_length _ _ _ H). reflexivity. }
  assert (Exm : XMean pts = XMean pts') by (unfold XMean; rewrite Es, En; reflexivity).
  assert (Eim : IMean pts = IMean pts') by (unfold IMean; rewrite Es, En; reflexivity).
  unfold survives, XStd, IStd. rewrite Exm, Eim, Es, En, Hx, Hr. reflexivity.
Qed.

Lemma closestX_sameXR (pts pts' : list LidarPoint.t) :
  Forall2 sameXR pts pts' -> closestX pts = closestX pts'.
Proof.
  intros H. unfold closestX. generalize minXInit.
  assert (G : forall l l', Forall2 sameXR l l' -> forall m,
            fold_left (minStep pts) l m = fold_left (minStep pts') l' m).
  { induction 1 as [|p q l l' Hpq _ IH]; intros m; simpl; [reflexivity|].
    unfold minStep at 2 4. rewrite (survives_sameXR _ _ _ _ H Hpq).
    destruct Hpq as [-> _]. apply IH. }
  exact (G _ _ H).
Qed.

(** X3.  The estimator reads only the forward distance and the reflectivity
    of the points: two calls whose point lists agree on [x] and [r] point by
    point give the same TTC, state and output, whatever [y] and [z] are. *)
Theorem computeTTCLidar_ignores_y_and_z
    (prev prev' curr curr' : list LidarPoint.t) (frameRate TTC0 vel acc : double) (model : Z) :
  Forall2 sameXR prev prev' -> Forall2 sameXR curr curr' ->
  computeTTCLidar prev curr frameRate TTC0 vel acc model
  = computeTTCLidar prev' curr' frameRate TTC0 vel acc model.
Proof.
  intros Hp Hc. unfold computeTTCLidar.
  rewrite (closestX_sameXR _ _ Hp), (closestX_sameXR _ _ Hc). reflexivity.
Qed.

Lemma computeTTCLidar_ignores_y_and_z_witness :
  let far := [LidarPoint.mk (D.of_Z 10) (D.of_Z 50) (D.of_Z (-3)) (D.of_Z 1);
              LidarPoint.mk (D.of_Z 11) (D.of_Z (-80)) (D.of_Z 9) (D.of_Z 2);
              LidarPoint.mk (D.of_Z 12) D.nan D.zero (D.of_Z 3)] in
  Forall2 sameXR (threePoints 10) far
  /\ computeTTCLidar (threePoints 10) (threePoints 9) (D.of_Z 10) D.nan unknown unknown 0
     = computeTTCLidar far (threePoints 9) (D.of_Z 10) D.nan unknown unknown 0.
Proof.
  intros far.
  assert (H : Forall2 sameXR (threePoints 10) far) by (repeat constructor).
  assert (H' : Forall2 sameXR (threePoints 9) (threePoints 9)) by (repeat constructor).
  split; [exact H|].
  exact (computeTTCLidar_ignores_y_and_z _ _ _ _ (D.of_Z 10) D.nan unknown unknown 0 H H').
Defined.

(** X4.  Once the acceleration differs from the sentinel, a run of calls
    never changes it, whatever the model; and under the constant-acceleration
    model the velocity is then advanced by [a*dT] at every call without any
    regard to the lidar points: two runs with the same frame rates end with
    the same velocity. *)
Theorem known_acceleration_is_frozen (model : Z) (acc : double) :
  D.eqb acc unknown = false ->
  (forall calls vel, finalAcc (runLidar model calls vel acc) = acc)
  /\ (forall calls calls' vel,
        callFrameRate <$> calls = callFrameRate <$> calls' ->
        finalVel (runLidar model calls vel acc) = finalVel (runLidar model calls' vel acc)).
Proof.
  intros Ha.
  assert (Step : forall prev curr fr t0 vel,
    let r := computeTTCLidar prev curr fr t0 vel acc model in
    vehicleAcc r = acc
    /\ vehicleVel r = (if model =? 0 then vel
                       else D.add vel (D.mul acc (F.to_double (dT_of fr))))).
  { intros prev curr fr t0 vel.
    destruct (computeTTCLidar_fields prev curr fr t0 vel acc model) as (H1 & _ & H3).
    rewrite Ha, andb_false_r in H1, H3. cbv iota in H1, H3.
    rewrite Ha, andb_false_r in H3. split; assumption. }
  split.
  - induction calls as [|c rest IH]; intros vel; cbn [runLidar]; [reflexivity|].
    destruct (Step (callPrev c) (callCurr c) (callFrameRate c) (callTTC0 c) vel) as [E1 E2].
    rewrite E1. specialize (IH (vehicleVel (computeTTCLidar (callPrev c) (callCurr c)
                                  (callFrameRate c) (callTTC0 c) vel acc model))).
    destruct (runLidar model rest _ acc) as [[ttcs v] a]. exact IH.
  - induction calls as [|c rest IH]; intros calls' vel Hfr; destruct calls' as [|c' rest'];
      simpl in Hfr; try discriminate; [reflexivity|].
    injection Hfr as Hc Hrest. cbn [runLidar].
    destruct (Step (callPrev c) (callCurr c) (callFrameRate c) (callTTC0 c) vel) as [E1 E2].
    destruct (Step (callPrev c') (callCurr c') (callFrameRate c') (callTTC0 c') vel)
      as [E1' E2'].
    rewrite E1, E1', E2, E2', Hc.
    specialize (IH rest' (if model =? 0 then vel
                          else D.add vel (D.mul acc (F.to_double (dT_of (callFrameRate c')))))
                  Hrest).
    destruct (runLidar model rest _ acc) as [[ttcs v] a].
    destruct (runLidar model rest' _ acc) as [[ttcs' v'] a']. exact IH.
Qed.

Lemma known_acceleration_is_frozen_witness :
  let calls := [mkLidarCall (threePoints 10) (threePoints 9) (D.of_Z 10) D.nan;
                mkLidarCall (threePoints 9) (threePoints 8) (D.of_Z 10) D.nan] in
  D.eqb (D.of_Z 2) unknown = false
  /\ finalAcc (runLidar 1 calls (D.of_Z 5) (D.of_Z 2)) = D.of_Z 2.
Proof.
  intros calls.
  assert (H : D.eqb (D.of_Z 2) unknown = false) by (vm_compute; reflexivity).
  split; [exact H|].
  exact (proj1 (known_acceleration_is_frozen 1 (D.of_Z 2) H) calls (D.of_Z 5)).
Defined.

(** X5.  In the branch with a positive discriminant, a TTC that is assigned
    is one of the two roots and is strictly positive. *)
Theorem positive_discriminant_assigns_positive_root (vel acc minXCurr t : double) :
  let b := coefB vel acc in
  let c := coefC acc minXCurr in
  D.gtb (discriminant b c) D.zero = true ->
  solveQuadratic vel acc minXCurr = Some t ->
  D.gtb t D.zero = true /\ (t = rootTTC1 b c \/ t = rootTTC2 b c).
Proof.
  intros b c Hd. unfold solveQuadratic. fold b c. rewrite Hd.
  destruct (D.gtb (rootTTC1 b c) D.zero) eqn:H1, (D.gtb (rootTTC2 b c) D.zero) eqn:H2;
    destruct (D.ltb (rootTTC1 b c) D.zero), (D.ltb (rootTTC2 b c) D.zero);
    simpl; intros E; try discriminate; injection E as <-;
    unfold D.min; try destruct (D.ltb (rootTTC2 b c) (rootTTC1 b c)); auto.
Qed.

Lemma positive_discriminant_assigns_positive_root_witness :
  exists t,
    D.gtb (discriminant (coefB (D.of_Z 1) (D.of_Z 1)) (coefC (D.of_Z 1) (D.of_Z 10))) D.zero
    = true
    /\ solveQuadratic (D.of_Z 1) (D.of_Z 1) (D.of_Z 10) = Some t
    /\ D.gtb t D.zero = true.
Proof.
  eexists.
  assert (Hd : D.gtb (discriminant (coefB (D.of_Z 1) (D.of_Z 1))
                        (coefC (D.of_Z 1) (D.of_Z 10))) D.zero = true)
    by (vm_compute; reflexivity).
  assert (Hs : solveQuadratic (D.of_Z 1) (D.of_Z 1) (D.of_Z 10)
               = Some (rootTTC2 (coefB (D.of_Z 1) (D.of_Z 1)) (coefC (D.of_Z 1) (D.of_Z 10))))
    by (vm_compute; reflexivity).
  split; [exact Hd|]. split; [exact Hs|].
  exact (proj1 (positive_discriminant_assigns_positive_root _ _ _ _ Hd Hs)).
Defined.

(** The console output of a call. *)
Lemma computeTTCLidar_cout
    (prev curr : list LidarPoint.t) (frameRate TTC0 vel acc : double) (model : Z) :
  let r := computeTTCLidar prev curr frameRate TTC0 vel acc model in
  exists accMsg,
    ~ In MsgNotAble accMsg
    /\ cout r = accMsg ++ (if model =? 0 then []
                           else if D.eqb (vehicleAcc r) unknown then []
                           else match solveQuadratic vel (vehicleAcc r) (closestX curr) with
                                | Some _ => []
                                | None => [MsgNotAble]
                                end).
Proof.
  unfold computeTTCLidar.
  destruct (D.neqb vel unknown && D.eqb acc unknown).
  - match goal with |- context [MsgVehicleAcc ?v ?w ?d ?a] =>
      exists [MsgVehicleAcc v w d a]; split; [simpl; intuition discriminate|];
      destruct (model =? 0); [reflexivity|];
      destruct (D.eqb a unknown) eqn:E; [cbn [vehicleAcc cout]; rewrite E; reflexivity|];
      destruct (solveQuadratic vel a (closestX curr)) eqn:Es;
      cbn [vehicleAcc cout]; rewrite E, Es, ?app_nil_r; reflexivity
    end.
  - exists []. split; [simpl; tauto|].
    destruct (model =? 0); [reflexivity|].
    destruct (D.eqb acc unknown) eqn:E; [cbn [vehicleAcc cout]; rewrite E; reflexivity|].
    destruct (solveQuadratic vel acc (closestX curr)) eqn:Es;
      cbn [vehicleAcc cout]; rewrite E, Es; reflexivity.
Qed.

(** X6.  The message "TTC is not able to calculate!" is printed exactly when
    the constant-acceleration branch solves the quadratic and finds no TTC to
    assign, and then the TTC variable still holds the caller's value; without
    the message the TTC has been assigned, by the constant-velocity formula
    or by the quadratic solve. *)
Theorem not_able_message_means_unassigned
    (prev curr : list LidarPoint.t) (frameRate TTC0 vel acc : double) (model : Z) :
  let r := computeTTCLidar prev curr frameRate TTC0 vel acc model in
  let cv := ttcConstantVelocity (closestX prev) (closestX curr) (dT_of frameRate) in
  (In MsgNotAble (cout r)
   <-> model <> 0 /\ D.eqb (vehicleAcc r) unknown = false
       /\ solveQuadratic vel (vehicleAcc r) (closestX curr) = None)
  /\ (In MsgNotAble (cout r) -> TTC r = TTC0)
  /\ (~ In MsgNotAble (cout r) ->
      TTC r = cv \/ solveQuadratic vel (vehicleAcc r) (closestX curr) = Some (TTC r)).
Proof.
  intros r cv.
  destruct (computeTTCLidar_cout prev curr frameRate TTC0 vel acc model)
    as (accMsg & Hno & Hcout).
  destruct (computeTTCLidar_fields prev curr frameRate TTC0 vel acc model)
    as (Hacc & Httc & _).
  fold r in Hcout, Hacc, Httc. fold cv in Httc. rewrite <- Hacc in Httc.
  unfold quadraticTTC in Httc. rewrite Hcout, Httc.
  destruct (Z.eqb_spec model 0) as [Hm | Hm].
  - rewrite app_nil_r. split; [tauto|]. split; [tauto|auto].
  - destruct (D.eqb (vehicleAcc r) unknown).
    + rewrite app_nil_r. split; [|split; [tauto|auto]].
      split; [tauto|intros (_ & H & _); discriminate].
    + destruct (solveQuadratic vel (vehicleAcc r) (closestX curr)).
      * rewrite app_nil_r. split; [|split; [tauto|auto]].
        split; [tauto|intros (_ & _ & H); discriminate].
      * assert (Hin : In MsgNotAble (accMsg ++ [MsgNotAble])).
        { apply in_or_app. right. left. reflexivity. }
        split; [|split; [reflexivity|tauto]].
        split; [auto|intros _; exact Hin].
Qed.

Lemma not_able_message_means_unassigned_witness :
  let r := computeTTCLidar (threePoints 10) (threePoints 0) (D.of_Z 10) (D.of_Z 77)
             (D.of_Z 1) (D.of_Z (-1)) 1 in
  In MsgNotAble (cout r) /\ TTC r = D.of_Z 77.
Proof.
  intros r.
  assert (H : In MsgNotAble (cout r)) by (vm_compute; left; reflexivity).
  split; [exact H|].
  exact (proj1 (proj2 (not_able_message_means_unassigned (threePoints 10) (threePoints 0)
                         (D.of_Z 10) (D.of_Z 77) (D.of_Z 1) (D.of_Z (-1)) 1)) H).
Defined.

(** ** [computeTTCCamera] and [clusterKptMatchesWithROI] *)

Lemma at_invalid {A} (v : list A) (i : Z) :
  ~ (0 <= i < Z.of_nat (length v)) -> at_ v i = Throws.
Proof.
  intros H. unfold at_. destruct (Z.ltb_spec i 0) as [|H0]; [reflexivity|].
  destruct (v !! Z.to_nat i) eqn:E; [|reflexivity].
  apply lookup_lt_Some in E. lia.
Qed.

Lemma validMatch_dec (kptsPrev kptsCurr : list KeyPoint) (m : DMatch) :
  {validMatch kptsPrev kptsCurr m} + {~ validMatch kptsPrev kptsCurr m}.
Proof.
  unfold validMatch.
  destruct (Z_le_dec 0 (queryIdx m)), (Z_lt_dec (queryIdx m) (Z.of_nat (length kptsPrev))),
    (Z_le_dec 0 (trainIdx m)), (Z_lt_dec (trainIdx m) (Z.of_nat (length kptsCurr)));
    (left; lia) || (right; lia).
Qed.

(** The two lookups at the head of every loop body throw unless both indices
    are valid. *)
Lemma lookups_invalid {B} (kptsPrev kptsCurr : list KeyPoint) (m : DMatch)
    (k : KeyPoint -> KeyPoint -> Outcome B) :
  ~ validMatch kptsPrev kptsCurr m ->
  (kpCurr ← at_ kptsCurr (trainIdx m); kpPrev ← at_ kptsPrev (queryIdx m); k kpCurr kpPrev)
  = Throws.
Proof.
  intros H. unfold validMatch in H.
  destruct (Z_le_dec 0 (trainIdx m)), (Z_lt_dec (trainIdx m) (Z.of_nat (length kptsCurr)));
    try (rewrite (at_invalid kptsCurr (trainIdx m)) by lia; reflexivity).
  rewrite (at_valid kptsCurr (trainIdx m)) by lia. rewrite bind_Returns.
  rewrite (at_invalid kptsPrev (queryIdx m)) by lia. reflexivity.
Qed.

Section IndexErrors.
Variable containsPt : Rect.t -> Point2f.t -> bool.
Variables kptsPrev kptsCurr : list KeyPoint.

Lemma distSums_invalid (ms : list DMatch) (distSum distSqSum : double) :
  ~ Forall (validMatch kptsPrev kptsCurr) ms ->
  distSums kptsPrev kptsCurr ms distSum distSqSum = Throws.
Proof.
  revert distSum distSqSum. induction ms as [|m ms IH]; intros distSum distSqSum H.
  - exfalso. apply H. constructor.
  - cbn [distSums]. unfold displacement.
    destruct (validMatch_dec kptsPrev kptsCurr m) as [[Hq Ht] | Hm].
    + rewrite (at_valid kptsCurr _ Ht), bind_Returns, (at_valid kptsPrev _ Hq), !bind_Returns.
      apply IH. intros Hms. apply H. constructor; [split; assumption|assumption].
    + pose proof (lookups_invalid kptsPrev kptsCurr m
                    (fun c p => Returns (Point2f.norm (Point2f.minus (pt c) (pt p)))) Hm) as E.
      unfold mbind in *. rewrite E. reflexivity.
Qed.

Lemma innerLoop_invalid (kpOuterCurr kpOuterPrev : KeyPoint) (inner : list DMatch)
    (distRatios : list double) :
  ~ Forall (validMatch kptsPrev kptsCurr) inner ->
  innerLoop kptsPrev kptsCurr kpOuterCurr kpOuterPrev inner distRatios = Throws.
Proof.
  revert distRatios. induction inner as [|m ms IH]; intros distRatios H.
  - exfalso. apply H. constructor.
  - cbn [innerLoop].
    destruct (validMatch_dec kptsPrev kptsCurr m) as [[Hq Ht] | Hm].
    + rewrite (at_valid kptsCurr _ Ht), bind_Returns, (at_valid kptsPrev _ Hq), bind_Returns.
      apply IH. intros Hms. apply H. constructor; [split; assumption|assumption].
    + apply (lookups_invalid kptsPrev kptsCurr m). exact Hm.
Qed.

(** The whole of [clusterKptMatchesWithROI] on valid indices. *)
Lemma clusterKptMatchesWithROI_valid (boundingBox : BoundingBox) (frameMatches : list DMatch) :
  Forall (validMatch kptsPrev kptsCurr) frameMatches ->
  clusterKptMatchesWithROI containsPt boundingBox kptsPrev kptsCurr frameMatches
  = Returns {| boxID := boxID boundingBox; roi := roi boundingBox;
               lidarPoints := lidarPoints boundingBox;
               kptMatches :=
                 kptMatches boundingBox
                 ++ List.filter (keepsMatch containsPt (roi boundingBox)
                                   kptsPrev kptsCurr frameMatches) frameMatches |}.
Proof.
  intros Hv. unfold clusterKptMatchesWithROI.
  rewrite (distSums_valid kptsPrev kptsCurr _ _ _ Hv), bind_Returns. cbn [fst snd].
  rewrite (keepMatches_valid containsPt kptsPrev kptsCurr _ _ _ _ _ Hv), bind_Returns.
  reflexivity.
Qed.
End IndexErrors.

(** X7.  [clusterKptMatchesWithROI] throws [std::out_of_range] exactly when
    some correspondence of the frame has an index outside its keypoint
    vector, wherever the keypoints lie; the exception comes from the first
    pass, before anything is appended to the box. *)
Theorem clusterKptMatchesWithROI_throws_iff_invalid_index
    (containsPt : Rect.t -> Point2f.t -> bool) (boundingBox : BoundingBox)
    (kptsPrev kptsCurr : list KeyPoint) (frameMatches : list DMatch) :
  (clusterKptMatchesWithROI containsPt boundingBox kptsPrev kptsCurr frameMatches = Throws
   <-> ~ Forall (validMatch kptsPrev kptsCurr) frameMatches)
  /\ (~ Forall (validMatch kptsPrev kptsCurr) frameMatches ->
      distSums kptsPrev kptsCurr frameMatches D.zero D.zero = Throws).
Proof.
  destruct (List.Forall_dec _ (validMatch_dec kptsPrev kptsCurr) frameMatches) as [Hv | Hn].
  - rewrite (clusterKptMatchesWithROI_valid containsPt kptsPrev kptsCurr _ _ Hv).
    split; [split; [discriminate|contradiction]|contradiction].
  - assert (E : distSums kptsPrev kptsCurr frameMatches D.zero D.zero = Throws)
      by (apply distSums_invalid; exact Hn).
    unfold clusterKptMatchesWithROI. rewrite E.
    split; [split; [intros _; exact Hn|reflexivity]|reflexivity].
Qed.

Lemma clusterKptMatchesWithROI_throws_iff_invalid_index_witness :
  ~ Forall (validMatch fourPrev fourCurr) [mkDMatch 0 0; mkDMatch 1 9]
  /\ clusterKptMatchesWithROI containsExact (boxAt 0 0 0 400 400) fourPrev fourCurr
       [mkDMatch 0 0; mkDMatch 1 9] = Throws.
Proof.
  assert (H : ~ Forall (validMatch fourPrev fourCurr) [mkDMatch 0 0; mkDMatch 1 9]).
  { intros Hv. inversion Hv as [|? ? _ Hv1]. inversion Hv1 as [|? ? [_ Ht] _].
    simpl in Ht. lia. }
  split; [exact H|].
  exact (proj2 (proj1 (clusterKptMatchesWithROI_throws_iff_invalid_index containsExact
                         (boxAt 0 0 0 400 400) fourPrev fourCurr
                         [mkDMatch 0 0; mkDMatch 1 9])) H).
Defined.

(** X8.  With two or more correspondences [computeTTCCamera] throws
    [std::out_of_range] exactly when one of them has an index outside its
    keypoint vector: every correspondence is looked up, as an outer or as an
    inner one.  With a single correspondence nothing is looked up and the
    result is NaN whatever its indices are. *)
Theorem computeTTCCamera_throws_iff_invalid_index
    (kptsPrev kptsCurr : list KeyPoint) (m1 m2 : DMatch) (rest : list DMatch)
    (frameRate : double) :
  (computeTTCCamera kptsPrev kptsCurr (m1 :: m2 :: rest) frameRate = Throws
   <-> ~ Forall (validMatch kptsPrev kptsCurr) (m1 :: m2 :: rest))
  /\ computeTTCCamera kptsPrev kptsCurr [m1] frameRate = Returns D.nan.
Proof.
  split; [|reflexivity].
  destruct (List.Forall_dec _ (validMatch_dec kptsPrev kptsCurr) (m1 :: m2 :: rest)) as [Hv | Hn].
  - rewrite (computeTTCCamera_valid kptsPrev kptsCurr _ _ frameRate Hv).
    split; [discriminate|contradiction].
  - split; [intros _; exact Hn|intros _].
    unfold computeTTCCamera.
    change (removelast (m1 :: m2 :: rest)) with (m1 :: removelast (m2 :: rest)).
    cbn [outerLoop].
    destruct (validMatch_dec kptsPrev kptsCurr m1) as [[Hq Ht] | Hm].
    + rewrite (at_valid kptsCurr _ Ht), bind_Returns, (at_valid kptsPrev _ Hq), bind_Returns.
      rewrite innerLoop_invalid; [reflexivity|].
      intros Hi. apply Hn. constructor; [split; assumption|assumption].
    + match goal with |- (?o ≫= ?k) = Throws =>
        assert (E : o = Throws); [|rewrite E; reflexivity] end.
      apply (lookups_invalid kptsPrev kptsCurr m1). exact Hm.
Qed.

Lemma computeTTCCamera_throws_iff_invalid_index_witness :
  ~ Forall (validMatch fourPrev fourCurr) [mkDMatch 0 0; mkDMatch 1 9]
  /\ computeTTCCamera fourPrev fourCurr [mkDMatch 0 0; mkDMatch 1 9] (D.of_Z 10) = Throws.
Proof.
  assert (H : ~ Forall (validMatch fourPrev fourCurr) [mkDMatch 0 0; mkDMatch 1 9]).
  { intros Hv. inversion Hv as [|? ? _ Hv1]. inversion Hv1 as [|? ? [_ Ht] _].
    simpl in Ht. lia. }
  split; [exact H|].
  exact (proj2 (proj1 (computeTTCCamera_throws_iff_invalid_index fourPrev fourCurr
                         (mkDMatch 0 0) (mkDMatch 1 9) [] (D.of_Z 10))) H).
Defined.

Lemma fsub_diag (v : float) : zeroOrNaN (F.sub v v) = true.
Proof.
  destruct v as [s|s| |s m e]; try destruct s; try reflexivity;
    unfold F.sub, SFsub; rewrite Z.sub_diag; reflexivity.
Qed.

Lemma norm_degenerate (a b : float) :
  zeroOrNaN a = true -> zeroOrNaN b = true ->
  D.gtb (Point2f.norm (Point2f.mk a b)) D.epsilon = false.
Proof.
  destruct a as [sa| | |], b as [sb| | |]; try discriminate; intros _ _;
    try destruct sa; try destruct sb; vm_compute; reflexivity.
Qed.

(** X9.  A correspondence whose previous-frame keypoint lies at the position
    of the outer one contributes no ratio, whatever the coordinates are
    (infinite and NaN included): the distance between the two is zero or NaN
    and fails the test against epsilon.  In particular a correspondence
    paired with itself is always skipped. *)
Theorem coinciding_previous_keypoints_give_no_ratio
    (kptsPrev kptsCurr : list KeyPoint) (kpOuterCurr kpOuterPrev : KeyPoint)
    (it2 : DMatch) (distRatios : list double) :
  validMatch kptsPrev kptsCurr it2 ->
  pt (kpAt kptsPrev (queryIdx it2)) = pt kpOuterPrev ->
  innerLoop kptsPrev kptsCurr kpOuterCurr kpOuterPrev [it2] distRatios = Returns distRatios.
Proof.
  intros [Hq Ht] Hsame. cbn [innerLoop].
  rewrite (at_valid kptsCurr _ Ht), bind_Returns, (at_valid kptsPrev _ Hq), bind_Returns.
  rewrite Hsame. cbv zeta.
  change (Point2f.minus (pt kpOuterPrev) (pt kpOuterPrev))
    with (Point2f.mk (F.sub (Point2f.x (pt kpOuterPrev)) (Point2f.x (pt kpOuterPrev)))
                     (F.sub (Point2f.y (pt kpOuterPrev)) (Point2f.y (pt kpOuterPrev)))).
  rewrite (norm_degenerate _ _ (fsub_diag _) (fsub_diag _)). reflexivity.
Qed.

Lemma coinciding_previous_keypoints_give_no_ratio_witness :
  validMatch fourPrev fourCurr (mkDMatch 3 3)
  /\ innerLoop fourPrev fourCurr (kpAt fourCurr 3) (kpAt fourPrev 3) [mkDMatch 3 3] []
     = Returns [].
Proof.
  assert (Hv : validMatch fourPrev fourCurr (mkDMatch 3 3)) by (split; simpl; lia).
  split; [exact Hv|].
  exact (coinciding_previous_keypoints_give_no_ratio fourPrev fourCurr
           (kpAt fourCurr 3) (kpAt fourPrev 3) (mkDMatch 3 3) [] Hv eq_refl).
Defined.

Lemma insertSorted_repeat (v : double) (n : nat) :
  insertSorted v (repeat v n) = repeat v (S n).
Proof.
  induction n as [|n IH]; simpl; [reflexivity|].
  unfold D.ltb. rewrite ltb_irrefl. f_equal. exact IH.
Qed.

Lemma sort_repeat (v : double) (n : nat) : sort (repeat v n) = repeat v n.
Proof.
  induction n as [|n IH]; [reflexivity|].
  change (sort (repeat v (S n))) with (insertSorted v (sort (repeat v n))).
  rewrite IH. apply insertSorted_repeat.
Qed.

Lemma nth_repeat_lt (v d : double) (n k : nat) : (k < n)%nat -> nth k (repeat v n) d = v.
Proof.
  revert k. induction n as [|n IH]; intros k Hk; [lia|].
  destruct k as [|k]; [reflexivity|]. simpl. apply IH. lia.
Qed.

Lemma median_of_ones (n : nat) : (0 < n)%nat -> medianOfSorted (repeat oneD n) = oneD.
Proof.
  intros Hn. unfold medianOfSorted. rewrite repeat_length.
  assert (H1 : (n / 2 < n)%nat) by (apply Nat.div_lt; lia).
  assert (H2 : ((n - 1) / 2 < n)%nat).
  { pose proof (Nat.Div0.div_le_upper_bound (n - 1) 2 (n - 1)). lia. }
  rewrite !nth_repeat_lt by assumption.
  destruct (n mod 2 =? 1)%nat; [reflexivity|]. vm_compute. reflexivity.
Qed.

(** X10.  When every ratio collected equals 1 (no apparent change of scale)
    the median is 1 and the TTC is [-dT / 0]: the call returns a value that
    is not finite, not a time. *)
Theorem unit_ratios_give_non_finite_ttc
    (kptsPrev kptsCurr : list KeyPoint) (m : DMatch) (ms : list DMatch) (frameRate : double) :
  Forall (validMatch kptsPrev kptsCurr) (m :: ms) ->
  visitedRatios kptsPrev kptsCurr (m :: ms) <> [] ->
  Forall (eq oneD) (visitedRatios kptsPrev kptsCurr (m :: ms)) ->
  exists t, computeTTCCamera kptsPrev kptsCurr (m :: ms) frameRate = Returns t
            /\ is_finite t = false.
Proof.
  intros Hv Hne Hall. rewrite (computeTTCCamera_valid kptsPrev kptsCurr m ms frameRate Hv).
  pose proof (Forall_eq_repeat Hall) as E.
  destruct (visitedRatios kptsPrev kptsCurr (m :: ms)) as [|r rs]; [contradiction|].
  eexists. split; [reflexivity|].
  rewrite E, sort_repeat, median_of_ones by (simpl; lia).
  unfold ttcFromRatio. change (D.sub (D.of_Z 1) oneD) with D.zero.
  apply div_zero_not_finite.
Qed.

Lemma unit_ratios_give_non_finite_ttc_witness :
  Forall (validMatch staticKpts staticKpts) staticMatches
  /\ visitedRatios staticKpts staticKpts staticMatches = [oneD]
  /\ computeTTCCamera staticKpts staticKpts staticMatches (D.of_Z 10)
     = Returns (S754_infinity true).
Proof.
  assert (Hv : Forall (validMatch staticKpts staticKpts) staticMatches)
    by (repeat constructor; simpl; lia).
  assert (Hr : visitedRatios staticKpts staticKpts staticMatches = [oneD])
    by (vm_compute; reflexivity).
  assert (Hne : visitedRatios staticKpts staticKpts staticMatches <> [])
    by (rewrite Hr; discriminate).
  assert (Hall : Forall (eq oneD) (visitedRatios staticKpts staticKpts staticMatches))
    by (rewrite Hr; repeat constructor).
  split; [exact Hv|]. split; [exact Hr|].
  destruct (unit_ratios_give_non_finite_ttc staticKpts staticKpts (mkDMatch 0 0)
              [mkDMatch 1 1] (D.of_Z 10) Hv Hne Hall) as (t & Ht & _).
  change staticMatches with [mkDMatch 0 0; mkDMatch 1 1]. rewrite Ht.
  vm_compute in Ht. symmetry. exact Ht.
Defined.

(** X11.  [clusterKptMatchesWithROI] appends to the match set the box already
    has and never clears it: called a second time on the box it returned,
    with the same frame data, it appends the same correspondences again. *)
Theorem clusterKptMatchesWithROI_accumulates
    (containsPt : Rect.t -> Point2f.t -> bool) (boundingBox : BoundingBox)
    (kptsPrev kptsCurr : list KeyPoint) (frameMatches : list DMatch) :
  Forall (validMatch kptsPrev kptsCurr) frameMatches ->
  let kept := List.filter (keepsMatch containsPt (roi boundingBox) kptsPrev kptsCurr
                             frameMatches) frameMatches in
  exists once twice,
    clusterKptMatchesWithROI containsPt boundingBox kptsPrev kptsCurr frameMatches
    = Returns once
    /\ clusterKptMatchesWithROI containsPt once kptsPrev kptsCurr frameMatches
       = Returns twice
    /\ kptMatches once = kptMatches boundingBox ++ kept
    /\ kptMatches twice = kptMatches boundingBox ++ kept ++ kept.
Proof.
  intros Hv kept. eexists. eexists.
  split; [apply (clusterKptMatchesWithROI_valid containsPt kptsPrev kptsCurr _ _ Hv)|].
  split; [apply (clusterKptMatchesWithROI_valid containsPt kptsPrev kptsCurr _ _ Hv)|].
  split; [reflexivity|]. cbn [kptMatches roi]. rewrite <- app_assoc. reflexivity.
Qed.

Lemma clusterKptMatchesWithROI_accumulates_witness :
  Forall (validMatch fourPrev fourCurr) fourMatches
  /\ exists once twice,
       clusterKptMatchesWithROI containsExact (boxAt 0 (-100) (-100) 450 450)
         fourPrev fourCurr fourMatches = Returns once
       /\ clusterKptMatchesWithROI containsExact once fourPrev fourCurr fourMatches
          = Returns twice
       /\ length (kptMatches twice) = 6%nat.
Proof.
  assert (Hv : Forall (validMatch fourPrev fourCurr) fourMatches)
    by (repeat constructor; simpl; lia).
  split; [exact Hv|].
  destruct (clusterKptMatchesWithROI_accumulates containsExact (boxAt 0 (-100) (-100) 450 450)
              fourPrev fourCurr fourMatches Hv) as (once & twice & H1 & H2 & _ & H4).
  exists once, twice. split; [exact H1|]. split; [exact H2|].
  rewrite H4. vm_compute. reflexivity.
Defined.

(** ** [clusterLidarWithROI] *)

Section ClusterLidarCounts.
Variable project : LidarPoint.t -> double * double * double.
Variable s : float.

Lemma totalLidarPoints_alter (boxes : list BoundingBox) (i : nat) (p : LidarPoint.t) :
  (i < length boxes)%nat ->
  totalLidarPoints (alter (pushLidarPoint p) i boxes) = S (totalLidarPoints boxes).
Proof.
  revert i. induction boxes as [|b rest IH]; intros i Hi; simpl in Hi; [lia|].
  destruct i as [|i].
  - simpl. rewrite length_app. simpl. lia.
  - change (alter (pushLidarPoint p) (S i) (b :: rest))
      with (b :: alter (pushLidarPoint p) i rest).
    simpl. rewrite IH by lia. lia.
Qed.

Lemma assignPoint_total (boxes : list BoundingBox) (p : LidarPoint.t) :
  totalLidarPoints (assignPoint project s boxes p)
  = (totalLidarPoints boxes + (if inOneBox project s boxes p then 1 else 0))%nat.
Proof.
  unfold assignPoint, inOneBox.
  destruct (enclosingBoxes s 0 boxes (pixelOf project p)) as [|i [|i' l]] eqn:E; simpl;
    try lia.
  rewrite totalLidarPoints_alter; [lia|].
  assert (Hin : In i (enclosingBoxes s 0 boxes (pixelOf project p)))
    by (rewrite E; left; reflexivity).
  apply enclosingBoxes_In in Hin as (_ & b & Hb & _).
  apply lookup_lt_Some in Hb. lia.
Qed.

Lemma clusterLidarWithROI_total (points : list LidarPoint.t) (boxes : list BoundingBox) :
  totalLidarPoints (clusterLidarWithROI project boxes points s)
  = (totalLidarPoints boxes + length (List.filter (inOneBox project s boxes) points))%nat.
Proof.
  unfold clusterLidarWithROI. revert boxes.
  induction points as [|p rest IH]; intros boxes; simpl; [lia|].
  rewrite IH, assignPoint_total.
  assert (Hext : List.filter (inOneBox project s (assignPoint project s boxes p)) rest
                 = List.filter (inOneBox project s boxes) rest).
  { apply List.filter_ext. intros q. unfold inOneBox.
    rewrite enclosingBoxes_assignPoint. reflexivity. }
  rewrite Hext. destruct (inOneBox project s boxes p); simpl; lia.
Qed.
End ClusterLidarCounts.

(** X12.  The clustering neither loses a point it has assigned nor invents
    one: the number of points the boxes hold grows by exactly the number of
    input points whose pixel lies in one and only one shrunk rectangle, so by
    at most the number of input points. *)
Theorem clusterLidarWithROI_conserves_points
    (project : LidarPoint.t -> double * double * double) (shrinkFactor : float)
    (boxes : list BoundingBox) (points : list LidarPoint.t) :
  totalLidarPoints (clusterLidarWithROI project boxes points shrinkFactor)
  = (totalLidarPoints boxes
     + length (List.filter (inOneBox project shrinkFactor boxes) points))%nat
  /\ (totalLidarPoints (clusterLidarWithROI project boxes points shrinkFactor)
      <= totalLidarPoints boxes + length points)%nat.
Proof.
  pose proof (clusterLidarWithROI_total project shrinkFactor points boxes) as E.
  split; [exact E|]. rewrite E.
  pose proof (List.filter_length_le (inOneBox project shrinkFactor boxes) points). lia.
Qed.

(** X13.  A box whose shrunk rectangle is covered by the shrunk rectangle of
    another box never receives a lidar point: every pixel that could go to
    it is shared.  Two detections with the same rectangle starve each other. *)
Theorem covered_box_receives_no_point
    (project : LidarPoint.t -> double * double * double) (shrinkFactor : float)
    (boxes : list BoundingBox) (points : list LidarPoint.t)
    (j k : nat) (a b : BoundingBox) :
  j <> k -> boxes !! j = Some a -> boxes !! k = Some b ->
  (forall px, Rect.contains (smallerBox shrinkFactor (roi a)) px = true ->
              Rect.contains (smallerBox shrinkFactor (roi b)) px = true) ->
  exists a', clusterLidarWithROI project boxes points shrinkFactor !! j = Some a'
             /\ lidarPoints a' = lidarPoints a.
Proof.
  intros Hjk Ha Hb Hcover.
  assert (Hnone : forall p, ownsPoint project shrinkFactor boxes j p = false).
  { intros p. destruct (ownsPoint project shrinkFactor boxes j p) eqn:E; [|reflexivity].
    apply ownsPoint_spec in E as ((a0 & Ha0 & Hc) & Huniq).
    rewrite Ha in Ha0. injection Ha0 as <-.
    exfalso. apply Hjk. symmetry. exact (Huniq k b Hb (Hcover _ Hc)). }
  assert (Hf : List.filter (ownsPoint project shrinkFactor boxes j) points = []).
  { induction points as [|p rest IH]; [reflexivity|]. simpl. rewrite Hnone. exact IH. }
  destruct (clusterLidarWithROI_lookup project shrinkFactor points boxes j a Ha)
    as (a' & Hl & _ & _ & _ & Hp).
  exists a'. split; [exact Hl|]. rewrite Hp, Hf. apply app_nil_r.
Qed.

Lemma covered_box_receives_no_point_witness :
  let boxes := [boxAt 0 0 0 100 100; boxAt 1 0 0 100 100] in
  let points := [lidarPixel 50 50; lidarPixel 20 70] in
  (0 <> 1)%nat
  /\ exists a', clusterLidarWithROI projectXYZ boxes points lidarShrinkFactor !! 0%nat = Some a'
                /\ lidarPoints a' = [].
Proof.
  intros boxes points.
  assert (H : (0 <> 1)%nat) by lia.
  split; [exact H|].
  exact (covered_box_receives_no_point projectXYZ lidarShrinkFactor boxes points
           0 1 (boxAt 0 0 0 100 100) (boxAt 1 0 0 100 100) H eq_refl eq_refl
           (fun px Hc => Hc)).
Defined.

(** ** [matchBoundingBoxes] *)

Lemma mapInsert_lookup_eq (k v : Z) (m : gmap Z Z) :
  mapInsert k v m !! k = Some (default v (m !! k)).
Proof.
  unfold mapInsert. destruct (m !! k) eqn:E; simpl; [exact E|]. apply lookup_insert_eq.
Qed.

Lemma mapInsert_lookup_ne (k k' v : Z) (m : gmap Z Z) :
  k <> k' -> mapInsert k v m !! k' = m !! k'.
Proof.
  intros H. unfold mapInsert. destruct (m !! k); [reflexivity|].
  apply lookup_insert_ne. exact H.
Qed.

Lemma mapInsert_preserves (k v k' v' : Z) (m : gmap Z Z) :
  m !! k' = Some v' -> mapInsert k v m !! k' = Some v'.
Proof.
  intros H. destruct (Z.eq_dec k k') as [->|Hne].
  - rewrite mapInsert_lookup_eq, H. reflexivity.
  - rewrite mapInsert_lookup_ne by assumption. exact H.
Qed.

(** What one previous box does to the map. *)
Lemma matchOne_cases (cs : list BoundingBox) (m : gmap Z Z) (p : BoundingBox) :
  matchOne cs m p = m
  \/ exists c, In c cs /\ F.gtb (IOURatio (roi p) (roi c)) IOUThreshold = true
               /\ matchOne cs m p = mapInsert (boxID p) (boxID c) m.
Proof.
  unfold matchOne.
  pose proof (scanCurrent_attained p cs maxIOUInit []) as Hatt.
  destruct (scanCurrent p cs maxIOUInit []) as [mx pairs]. simpl in Hatt.
  destruct (F.gtb mx IOUThreshold) eqn:Hgt; [|left; reflexivity].
  destruct Hatt as [E | (c & Hin & Hf & Hl & _)].
  - injection E as -> ->. left. reflexivity.
  - subst mx. rewrite Hl. right. exists c. auto.
Qed.

Lemma matchOne_other_key (cs : list BoundingBox) (m : gmap Z Z) (p : BoundingBox) (k : Z) :
  k <> boxID p -> matchOne cs m p !! k = m !! k.
Proof.
  intros H. destruct (matchOne_cases cs m p) as [-> | (c & _ & _ & ->)]; [reflexivity|].
  apply mapInsert_lookup_ne. congruence.
Qed.

(** X14.  [matchBoundingBoxes] never overwrites: every entry the map holds
    before the call, and every entry made during the call, is still there at
    the end with the same value; among previous boxes that share an id the
    first one that matches fixes the entry. *)
Theorem matchBoundingBoxes_never_overwrites
    (bbBestMatches : gmap Z Z) (prevBoxes currBoxes : list BoundingBox) (k v : Z) :
  bbBestMatches !! k = Some v ->
  matchBoundingBoxes bbBestMatches prevBoxes currBoxes !! k = Some v.
Proof.
  unfold matchBoundingBoxes. revert bbBestMatches.
  induction prevBoxes as [|p rest IH]; intros m H; simpl; [exact H|].
  apply IH. destruct (matchOne_cases currBoxes m p) as [-> | (c & _ & _ & ->)]; [exact H|].
  apply mapInsert_preserves. exact H.
Qed.

Lemma matchBoundingBoxes_never_overwrites_witness :
  ({[ 0 := 9 ]} : gmap Z Z) !! 0 = Some 9
  /\ matchBoundingBoxes {[ 0 := 9 ]} [boxAt 0 0 0 100 100] [boxAt 5 1 1 100 100] !! 0
     = Some 9.
Proof.
  assert (H : ({[ 0 := 9 ]} : gmap Z Z) !! 0 = Some 9) by reflexivity.
  split; [exact H|].
  exact (matchBoundingBoxes_never_overwrites {[ 0 := 9 ]} [boxAt 0 0 0 100 100]
           [boxAt 5 1 1 100 100] 0 9 H).
Defined.

(** Where the entries made from an empty map come from. *)
Lemma matchBoundingBoxes_provenance
    (m : gmap Z Z) (prevBoxes currBoxes : list BoundingBox) (k v : Z) :
  fold_left (matchOne currBoxes) prevBoxes m !! k = Some v ->
  m !! k = Some v
  \/ exists p c, In p prevBoxes /\ In c currBoxes /\ boxID p = k /\ boxID c = v
                 /\ F.gtb (IOURatio (roi p) (roi c)) IOUThreshold = true.
Proof.
  revert m. induction prevBoxes as [|p rest IH]; intros m H; simpl in *; [left; exact H|].
  destruct (IH _ H) as [H1 | (p' & c & Hp & Hc & E1 & E2 & Hg)].
  - destruct (matchOne_cases currBoxes m p) as [E | (c & Hin & Hg & E)]; rewrite E in H1.
    + left. exact H1.
    + destruct (Z.eq_dec (boxID p) k) as [Hk | Hk].
      * subst k. rewrite mapInsert_lookup_eq in H1.
        destruct (m !! boxID p) as [v0|] eqn:Em; simpl in H1.
        -- left. exact H1.
        -- right. exists p, c. injection H1 as <-. auto 10.
      * left. rewrite mapInsert_lookup_ne in H1 by assumption. exact H1.
  - right. exists p', c. auto 10.
Qed.

Lemma matchBoundingBoxes_entries_come_from_boxes_aux
    (prevBoxes currBoxes : list BoundingBox) (k v : Z) :
  matchBoundingBoxes ∅ prevBoxes currBoxes !! k = Some v ->
  exists p c, In p prevBoxes /\ In c currBoxes /\ boxID p = k /\ boxID c = v.
Proof.
  intros H. destruct (matchBoundingBoxes_provenance ∅ prevBoxes currBoxes k v H)
    as [E | (p & c & Hp & Hc & E1 & E2 & _)].
  - rewrite lookup_empty in E. discriminate.
  - exists p, c. auto.
Qed.

(** X15.  Every entry of the result was in the map before the call, or maps
    the id of a previous box to the id of a current box whose ratio with it
    is above the threshold: no id is invented. *)
Theorem matchBoundingBoxes_entries_come_from_boxes
    (bbBestMatches : gmap Z Z) (prevBoxes currBoxes : list BoundingBox) (k v : Z) :
  matchBoundingBoxes bbBestMatches prevBoxes currBoxes !! k = Some v ->
  bbBestMatches !! k = Some v
  \/ exists p c, In p prevBoxes /\ In c currBoxes /\ boxID p = k /\ boxID c = v
                 /\ F.gtb (IOURatio (roi p) (roi c)) IOUThreshold = true.
Proof. apply matchBoundingBoxes_provenance. Qed.

Lemma matchBoundingBoxes_entries_come_from_boxes_witness :
  matchBoundingBoxes ∅ [boxAt 0 0 0 100 100] [boxAt 5 1 1 100 100] !! 0 = Some 5
  /\ exists p c, In p [boxAt 0 0 0 100 100] /\ In c [boxAt 5 1 1 100 100]
                 /\ boxID p = 0 /\ boxID c = 5.
Proof.
  assert (H : matchBoundingBoxes ∅ [boxAt 0 0 0 100 100] [boxAt 5 1 1 100 100] !! 0 = Some 5)
    by (vm_compute; reflexivity).
  split; [exact H|].
  destruct (matchBoundingBoxes_entries_come_from_boxes ∅ [boxAt 0 0 0 100 100]
              [boxAt 5 1 1 100 100] 0 5 H) as [E | (p & c & Hp & Hc & E1 & E2 & _)].
  - rewrite lookup_empty in E. discriminate.
  - exists p, c. auto.
Defined.

(** X16.  When the previous boxes have pairwise different ids and the id of
    a previous box is not yet in the map, the result maps that id to a
    current box with the greatest ratio if some ratio is above the
    threshold, and holds no entry for it otherwise. *)
Theorem matchBoundingBoxes_entry_iff_above_threshold
    (bbBestMatches : gmap Z Z) (prevBoxes currBoxes : list BoundingBox) (p : BoundingBox) :
  List.NoDup (boxID <$> prevBoxes) -> In p prevBoxes -> bbBestMatches !! boxID p = None ->
  ((exists c, In c currBoxes /\ F.gtb (IOURatio (roi p) (roi c)) IOUThreshold = true) ->
   exists c, In c currBoxes
             /\ F.gtb (IOURatio (roi p) (roi c)) IOUThreshold = true
             /\ (forall c', In c' currBoxes ->
                   F.gtb (IOURatio (roi p) (roi c')) (IOURatio (roi p) (roi c)) = false)
             /\ matchBoundingBoxes bbBestMatches prevBoxes currBoxes !! boxID p
                = Some (boxID c))
  /\ ((forall c, In c currBoxes -> F.gtb (IOURatio (roi p) (roi c)) IOUThreshold = false) ->
      matchBoundingBoxes bbBestMatches prevBoxes currBoxes !! boxID p = None).
Proof.
  unfold matchBoundingBoxes. revert bbBestMatches.
  induction prevBoxes as [|q rest IH]; intros m Hnd Hin Hm; [destruct Hin|].
  cbn [fmap list_fmap] in Hnd. simpl in Hnd. inversion Hnd as [|? ? Hq Hrest]; subst.
  destruct Hin as [-> | Hin].
  - (* p is processed now; the others have other ids *)
    assert (Hlater : forall m', fold_left (matchOne currBoxes) rest m' !! boxID p
                                = m' !! boxID p).
    { clear IH Hnd Hrest Hm. induction rest as [|r rest IHr]; intros m'; simpl; [reflexivity|].
      rewrite IHr.
      - apply matchOne_other_key. intros E. apply Hq. simpl. left. congruence.
      - intros Hr. apply Hq. simpl. right. exact Hr. }
    simpl. rewrite Hlater.
    destruct (matchOne_spec currBoxes m p) as [Habove Hbelow]. split.
    + intros Hex. destruct (Habove Hex) as (c & Hc & Hg & Hmax & E).
      exists c. rewrite E, mapInsert_lookup_eq, Hm. auto.
    + intros Hno. rewrite (Hbelow Hno). exact Hm.
  - simpl. apply IH; [exact Hrest|exact Hin|].
    rewrite matchOne_other_key; [exact Hm|].
    intros E. apply Hq. rewrite <- E.
    apply list_elem_of_In, list_elem_of_fmap. exists p.
    split; [reflexivity|apply list_elem_of_In; exact Hin].
Qed.

Lemma matchBoundingBoxes_entry_iff_above_threshold_witness :
  let prev := [boxAt 0 0 0 100 100; boxAt 1 300 300 50 50] in
  let curr := [boxAt 5 1 1 100 100] in
  List.NoDup (boxID <$> prev)
  /\ matchBoundingBoxes ∅ prev curr !! 1 = None.
Proof.
  intros prev curr.
  assert (Hnd : List.NoDup (boxID <$> prev)).
  { repeat constructor; simpl; intuition discriminate. }
  split; [exact Hnd|].
  apply (proj2 (matchBoundingBoxes_entry_iff_above_threshold ∅ prev curr
                  (boxAt 1 300 300 50 50) Hnd (or_intror (or_introl eq_refl))
                  (lookup_empty _))).
  intros c [<- | []]. vm_compute. reflexivity.
Defined.

(** What a previous box does to the map does not depend on the map. *)
Lemma matchOne_form (cs : list BoundingBox) (p : BoundingBox) :
  (forall m, matchOne cs m p = m)
  \/ exists c, In c cs /\ forall m, matchOne cs m p = mapInsert (boxID p) (boxID c) m.
Proof.
  unfold matchOne.
  pose proof (scanCurrent_attained p cs maxIOUInit []) as Hatt.
  destruct (scanCurrent p cs maxIOUInit []) as [mx pairs]. simpl in Hatt.
  destruct (F.gtb mx IOUThreshold) eqn:Hgt; [|left; reflexivity].
  destruct Hatt as [E | (c & Hin & Hf & Hl & _)].
  - injection E as -> ->. left. reflexivity.
  - rewrite Hl. right. exists c. split; [exact Hin|reflexivity].
Qed.

Lemma fold_matchOne_keeps_keys (cs prev : list BoundingBox) (m : gmap Z Z) (k : Z) :
  is_Some (m !! k) -> is_Some (fold_left (matchOne cs) prev m !! k).
Proof.
  revert m. induction prev as [|p rest IH]; intros m H; simpl; [exact H|].
  apply IH. destruct (matchOne_cases cs m p) as [-> | (c & _ & _ & ->)]; [exact H|].
  destruct H as [v Hv]. exists v. apply mapInsert_preserves. exact Hv.
Qed.

(** X20.  Matching is idempotent: running [matchBoundingBoxes] again on the
    map it produced, with the same two frames, changes nothing. *)
Theorem matchBoundingBoxes_idempotent
    (bbBestMatches : gmap Z Z) (prevBoxes currBoxes : list BoundingBox) :
  matchBoundingBoxes (matchBoundingBoxes bbBestMatches prevBoxes currBoxes)
    prevBoxes currBoxes
  = matchBoundingBoxes bbBestMatches prevBoxes currBoxes.
Proof.
  unfold matchBoundingBoxes.
  set (R := fold_left (matchOne currBoxes) prevBoxes bbBestMatches).
  assert (Hfix : forall p, In p prevBoxes -> matchOne currBoxes R p = R).
  { intros p Hin. destruct (matchOne_form currBoxes p) as [Hid | (c & _ & Hins)];
      [apply Hid|].
    rewrite Hins. unfold mapInsert.
    destruct (R !! boxID p) eqn:E; [reflexivity|]. exfalso.
    apply List.in_split in Hin as (l1 & l2 & ->). subst R.
    rewrite fold_left_app in E. simpl in E. rewrite Hins in E.
    assert (Hs : is_Some (fold_left (matchOne currBoxes) l2
                            (mapInsert (boxID p) (boxID c)
                               (fold_left (matchOne currBoxes) l1 bbBestMatches))
                          !! boxID p)).
    { apply fold_matchOne_keeps_keys. rewrite mapInsert_lookup_eq. eauto. }
    rewrite E in Hs. destruct Hs as [? Hs]. discriminate. }
  clearbody R. induction prevBoxes as [|p rest IH]; simpl; [reflexivity|].
  rewrite (Hfix p) by (left; reflexivity). apply IH.
  intros q Hq. apply Hfix. right. exact Hq.
Qed.

(** ** The frame loop *)

(** The search for a box id finds the last box with that id, or keeps what
    it had. *)
Lemma findBox_absent (id : Z) (boxes : list BoundingBox) (found : option nat) (i : nat) :
  (forall b, In b boxes -> boxID b <> id) -> findBox id boxes found i = found.
Proof.
  revert found i. induction boxes as [|b rest IH]; intros found i H; simpl; [reflexivity|].
  destruct (Z.eqb_spec id (boxID b)) as [E|_].
  - exfalso. apply (H b); [left; reflexivity|congruence].
  - apply IH. intros b' Hb'. apply H. right. exact Hb'.
Qed.

Lemma findBox_present (id : Z) (boxes : list BoundingBox) (found : option nat) (i : nat) :
  (exists b, In b boxes /\ boxID b = id) ->
  exists j b, findBox id boxes found i = Some (i + j)%nat
              /\ boxes !! j = Some b /\ boxID b = id.
Proof.
  revert found i. induction boxes as [|b rest IH]; intros found i (b0 & Hin & Hid);
    [destruct Hin|]. simpl.
  destruct (List.Exists_dec (fun b' => boxID b' = id) rest
              (fun b' => Z.eq_dec (boxID b') id)) as [Hex | Hno].
  - apply List.Exists_exists in Hex.
    destruct (IH (if id =? boxID b then Some i else found) (S i) Hex)
      as (j & b' & Hf & Hl & Hb).
    exists (S j), b'. rewrite Hf. split; [f_equal; lia|]. split; assumption.
  - assert (Hnone : forall b', In b' rest -> boxID b' <> id).
    { intros b' Hb' E. apply Hno. apply List.Exists_exists. eauto. }
    rewrite (findBox_absent id rest _ (S i) Hnone).
    destruct Hin as [-> | Hin]; [|exfalso; exact (Hnone b0 Hin Hid)].
    rewrite <- Hid, Z.eqb_refl. exists 0%nat, b0.
    split; [f_equal; lia|]. split; reflexivity.
Qed.

(** X17.  The two searches of the frame loop always succeed on the entries
    that [matchBoundingBoxes] has put into a fresh map: each entry leads to
    a previous box and to a current box with the ids of the entry, so the
    loop never uses a pointer that no search has set. *)
Theorem matched_entries_are_found
    (prevBoxes currBoxes : list BoundingBox) (it1 : Z * Z) :
  In it1 (mapEntries (matchBoundingBoxes ∅ prevBoxes currBoxes)) ->
  (exists ip prevBB, findBox (fst it1) prevBoxes None 0 = Some ip
                     /\ prevBoxes !! ip = Some prevBB /\ boxID prevBB = fst it1)
  /\ (exists ic currBB, findBox (snd it1) currBoxes None 0 = Some ic
                        /\ currBoxes !! ic = Some currBB /\ boxID currBB = snd it1).
Proof.
  intros Hin. destruct it1 as [k v]. unfold mapEntries in Hin.
  apply list_elem_of_In in Hin. rewrite merge_sort_Permutation in Hin.
  apply elem_of_map_to_list in Hin.
  destruct (matchBoundingBoxes_entries_come_from_boxes_aux prevBoxes currBoxes k v Hin)
    as (p & c & Hp & Hc & E1 & E2).
  split.
  - destruct (findBox_present k prevBoxes None 0) as (j & b & Hf & Hl & Hb); [eauto|].
    exists j, b. auto.
  - destruct (findBox_present v currBoxes None 0) as (j & b & Hf & Hl & Hb); [eauto|].
    exists j, b. auto.
Qed.

Lemma matched_entries_are_found_witness :
  In (0, 5) (mapEntries (matchBoundingBoxes ∅ examplePrevBoxes exampleCurrBoxes))
  /\ findBox 0 examplePrevBoxes None 0 = Some 0%nat
  /\ findBox 5 exampleCurrBoxes None 0 = Some 0%nat.
Proof.
  assert (H : In (0, 5) (mapEntries (matchBoundingBoxes ∅ examplePrevBoxes exampleCurrBoxes)))
    by (vm_compute; left; reflexivity).
  split; [exact H|].
  destruct (matched_entries_are_found examplePrevBoxes exampleCurrBoxes (0, 5) H)
    as ((ip & pb & Hp & _) & (ic & cb & Hc & _)).
  simpl in Hp, Hc. vm_compute in Hp, Hc.
  injection Hp as <-. injection Hc as <-. split; reflexivity.
Defined.

Section FrameLoopFacts.
Variable containsPt : Rect.t -> Point2f.t -> bool.
Variables (TTCcalModel : Z) (sensorFrameRate : double).
Variables (kptsPrev kptsCurr : list KeyPoint) (frameMatches : list DMatch).
Variable ttcLidar0 : Z * Z -> double.

Lemma clusterKptMatchesWithROI_sameBox (b b' : BoundingBox) :
  clusterKptMatchesWithROI containsPt b kptsPrev kptsCurr frameMatches = Returns b' ->
  sameBox b b'.
Proof.
  unfold clusterKptMatchesWithROI.
  destruct (distSums kptsPrev kptsCurr frameMatches D.zero D.zero) as [sums| |];
    try discriminate. rewrite bind_Returns.
  match goal with |- context [keepMatches ?c ?box ?m ?sd ?kp ?kc ?ms ?k] =>
    destruct (keepMatches c box m sd kp kc ms k) as [kept| |] end; try discriminate.
  rewrite bind_Returns. intros [= <-]. repeat split.
Qed.

Lemma processPair_invariant (prevBB currBB : BoundingBox) (t0 : double) (st : RunState)
    (res : BoundingBox * RunState) :
  processPair containsPt TTCcalModel sensorFrameRate kptsPrev kptsCurr frameMatches
    prevBB currBB t0 st = Returns res ->
  sameBox currBB (fst res) /\ grownTogether st (snd res).
Proof.
  unfold processPair.
  destruct ((0 <? Z.of_nat (length (lidarPoints currBB)))
            && (0 <? Z.of_nat (length (lidarPoints prevBB)))).
  - destruct (clusterKptMatchesWithROI containsPt currBB kptsPrev kptsCurr frameMatches)
      as [b'| |] eqn:Ec; try discriminate. rewrite bind_Returns.
    destruct (computeTTCCamera kptsPrev kptsCurr (kptMatches b') sensorFrameRate)
      as [t| |]; try discriminate. rewrite bind_Returns. intros [= <-]. simpl.
    split; [exact (clusterKptMatchesWithROI_sameBox _ _ Ec)|].
    exists 1%nat. cbn [lidarBasedTTC cameraBasedTTC]. rewrite !length_app. simpl.
    split; reflexivity.
  - intros [= <-]. simpl. split; [repeat split|]. exists 0%nat. split; lia.
Qed.

Lemma processMatch_invariant (prevBoxes : list BoundingBox)
    (s s' : list BoundingBox * RunState) (it1 : Z * Z) :
  processMatch containsPt TTCcalModel sensorFrameRate kptsPrev kptsCurr frameMatches
    ttcLidar0 prevBoxes s it1 = Returns s' ->
  Forall2 sameBox (fst s) (fst s') /\ grownTogether (snd s) (snd s').
Proof.
  assert (Hrefl : forall l, Forall2 sameBox l l).
  { induction l; constructor; [repeat split|assumption]. }
  unfold processMatch.
  destruct (findBox (snd it1) (fst s) None 0) as [ic|]; try discriminate.
  destruct (fst s !! ic) as [currBB|] eqn:Ec; try discriminate.
  destruct (0 <? Z.of_nat (length (lidarPoints currBB))).
  - destruct (findBox (fst it1) prevBoxes None 0) as [ip|]; try discriminate.
    destruct (prevBoxes !! ip) as [prevBB|]; try discriminate.
    destruct (processPair containsPt TTCcalModel sensorFrameRate kptsPrev kptsCurr
                frameMatches prevBB currBB (ttcLidar0 it1) (snd s)) as [res| |] eqn:Ep;
      try discriminate.
    rewrite bind_Returns. intros [= <-]. simpl.
    destruct (processPair_invariant _ _ _ _ _ Ep) as [Hb Hg]. split; [|exact Hg].
    clear Ep. revert ic Ec. generalize (fst s). intros l.
    induction l as [|b l IH]; intros ic Ec; [constructor|].
    destruct ic as [|ic]; simpl in *.
    + injection Ec as ->. constructor; [exact Hb|apply Hrefl].
    + constructor; [repeat split|apply IH; exact Ec].
  - intros [= <-]. split; [apply Hrefl|]. exists 0%nat. split; lia.
Qed.

Lemma processMatches_invariant (prevBoxes : list BoundingBox) (entries : list (Z * Z))
    (s s' : list BoundingBox * RunState) :
  processMatches containsPt TTCcalModel sensorFrameRate kptsPrev kptsCurr frameMatches
    ttcLidar0 prevBoxes s entries = Returns s' ->
  Forall2 sameBox (fst s) (fst s') /\ grownTogether (snd s) (snd s').
Proof.
  revert s. induction entries as [|it1 rest IH]; intros s; cbn [processMatches].
  - intros [= <-]. split.
    + induction (fst s); constructor; [repeat split|assumption].
    + exists 0%nat. split; lia.
  - destruct (processMatch containsPt TTCcalModel sensorFrameRate kptsPrev kptsCurr
                frameMatches ttcLidar0 prevBoxes s it1) as [s1| |] eqn:E1; try discriminate.
    rewrite bind_Returns. intros H.
    destruct (processMatch_invariant _ _ _ _ E1) as [Hb1 (n1 & Hl1 & Hc1)].
    destruct (IH _ H) as [Hb2 (n2 & Hl2 & Hc2)]. split.
    + clear - Hb1 Hb2. revert Hb2. generalize (fst s'). 
      induction Hb1 as [|a b l l' (H1 & H2 & H3) _ IHl]; intros l'' Hb2;
        inversion Hb2 as [|? c ? l3 (H4 & H5 & H6) Hrest]; subst; constructor.
      * repeat split; congruence.
      * apply IHl. exact Hrest.
    + exists (n1 + n2)%nat. split; lia.
Qed.
End FrameLoopFacts.

(** X18.  When the processing of a frame returns, the current boxes have
    kept their ids, rectangles and lidar points (only keypoint matches have
    been added), and the two result vectors have grown by the same number of
    values: if they had the same length before, they have the same length
    after, which is what the result loop relies on when it indexes the
    camera values by the number of lidar values. *)
Theorem trackFrame_only_adds_matches
    (containsPt : Rect.t -> Point2f.t -> bool) (TTCcalModel : Z) (sensorFrameRate : double)
    (kptsPrev kptsCurr : list KeyPoint) (frameMatches : list DMatch)
    (ttcLidar0 : Z * Z -> double) (prevBoxes currBoxes : list BoundingBox)
    (st : RunState) (res : list BoundingBox * RunState) :
  trackFrame containsPt TTCcalModel sensorFrameRate kptsPrev kptsCurr frameMatches
    ttcLidar0 prevBoxes currBoxes st = Returns res ->
  Forall2 sameBox currBoxes (fst res)
  /\ grownTogether st (snd res)
  /\ (length (lidarBasedTTC st) = length (cameraBasedTTC st) ->
      length (lidarBasedTTC (snd res)) = length (cameraBasedTTC (snd res))).
Proof.
  unfold trackFrame. intros H.
  destruct (processMatches_invariant _ _ _ _ _ _ _ _ _ _ _ H) as [Hb (n & Hl & Hc)].
  split; [exact Hb|]. split; [exists n; split; assumption|]. simpl in *. lia.
Qed.

Lemma trackFrame_only_adds_matches_witness :
  exists res,
    trackFrame containsExact 0 (D.of_Z 10) fourPrev fourCurr fourMatches (fun _ => D.nan)
      examplePrevBoxes exampleCurrBoxes (mkRunState unknown unknown [] []) = Returns res
    /\ lidarPoints <$> fst res = [threePoints 9]
    /\ length (lidarBasedTTC (snd res)) = 1%nat
    /\ length (cameraBasedTTC (snd res)) = 1%nat.
Proof.
  destruct (trackFrame containsExact 0 (D.of_Z 10) fourPrev fourCurr fourMatches
              (fun _ => D.nan) examplePrevBoxes exampleCurrBoxes
              (mkRunState unknown unknown [] [])) as [res| |] eqn:H.
  - exists res. split; [reflexivity|].
    destruct (trackFrame_only_adds_matches _ _ _ _ _ _ _ _ _ _ _ H) as (_ & _ & Hlen).
    specialize (Hlen eq_refl).
    vm_compute in H. injection H as <-.
    split; [reflexivity|]. split; [reflexivity|]. rewrite <- Hlen. reflexivity.
  - vm_compute in H. discriminate.
  - vm_compute in H. discriminate.
Defined.

(** X19.  The frame buffer is a ring: with a capacity of at least one, after
    any sequence of frames has been pushed it holds the most recent frames,
    in order, and never more than the capacity; in particular the last frame
    pushed is at the end and the one before it just in front of it.  With a
    capacity of zero the very first push erases from an empty vector. *)
Theorem ring_buffer_keeps_last_frames {A} (dataBufferSize : Z) (dataBuffer frames : list A) :
  (1 <= dataBufferSize ->
   Z.of_nat (length dataBuffer) <= dataBufferSize ->
   exists buffer,
     pushFrames dataBufferSize dataBuffer frames = Returns buffer
     /\ buffer = drop (length dataBuffer + length frames - Z.to_nat dataBufferSize)
                   (dataBuffer ++ frames)
     /\ Z.of_nat (length buffer) <= dataBufferSize)
  /\ (forall frame : A, pushFrame 0 [] frame = Undefined).
Proof.
  split; [|reflexivity].
  intros Hcap. revert dataBuffer.
  induction frames as [|f fs IH]; intros buf Hlen.
  - exists buf. split; [reflexivity|]. split; [|exact Hlen].
    rewrite app_nil_r. simpl. replace (length buf + 0 - Z.to_nat dataBufferSize)%nat
      with 0%nat by lia. reflexivity.
  - cbn [pushFrames]. unfold pushFrame.
    destruct (Z.ltb_spec dataBufferSize 0) as [|_]; [lia|].
    destruct (Z.leb_spec dataBufferSize (Z.of_nat (length buf))) as [Hfull | Hroom].
    + destruct buf as [|b rest]; [simpl in Hfull; lia|].
      rewrite bind_Returns.
      destruct (IH (rest ++ [f])) as (buffer & Hp & Hb & Hl).
      { rewrite length_app. simpl in *. lia. }
      exists buffer. split; [exact Hp|]. split; [|exact Hl].
      rewrite Hb, length_app. simpl in *.
      replace (length rest + 1 + length fs - Z.to_nat dataBufferSize)%nat
        with (length fs) by lia.
      replace (S (length rest + S (length fs)) - Z.to_nat dataBufferSize)%nat
        with (S (length fs)) by lia.
      simpl. rewrite <- app_assoc. reflexivity.
    + rewrite bind_Returns.
      destruct (IH (buf ++ [f])) as (buffer & Hp & Hb & Hl).
      { rewrite length_app. simpl. lia. }
      exists buffer. split; [exact Hp|]. split; [|exact Hl].
      rewrite Hb, length_app. simpl length.
      replace (length buf + 1 + length fs)%nat with (length buf + S (length fs))%nat by lia.
      rewrite <- app_assoc. reflexivity.
Qed.

Lemma ring_buffer_keeps_last_frames_witness :
  1 <= 2 /\ Z.of_nat (length ([] : list Z)) <= 2
  /\ pushFrames 2 [] [10; 11; 12; 13; 14] = Returns [13; 14].
Proof.
  assert (H1 : 1 <= 2) by lia.
  assert (H2 : Z.of_nat (length ([] : list Z)) <= 2) by (simpl; lia).
  split; [exact H1|]. split; [exact H2|].
  destruct (proj1 (ring_buffer_keeps_last_frames 2 [] [10; 11; 12; 13; 14]) H1 H2)
    as (buffer & Hp & Hb & _).
  rewrite Hp, Hb. reflexivity.
Defined.
